(** * braid-llm-kit/tools/llm_autofix.py: the edit applier and the fix loop

    A shallow embedding of [apply_fixes], of the diagnostic parsing done
    inside [check_and_fix], and of the fix loop itself, followed by the
    properties of the tool's specification.

    Python values are modelled as the program sees them: [str] as
    [string] (one [ascii] per character; nothing below depends on the size
    of the alphabet), [int] as [Z], the values returned by [json.loads] as
    the inductive [json], uncaught exceptions as the [Raise] branch of
    [result]. *)

From Stdlib Require Import ZArith List String Ascii Bool Lia.
From Stdlib Require Import Permutation Sorted DecimalString.
Import ListNotations.

Local Open Scope list_scope.
Local Open Scope string_scope.
Local Open Scope Z_scope.

Set Warnings "-register-all".

(** ** Exceptions and the error monad *)

Inductive exn : Type :=
| AttributeError
| TypeError
| KeyError
| ValueError
| OverflowError
| JSONDecodeError
| OSError
| OtherError (name : string).

Inductive result (A : Type) : Type :=
| Ok (a : A)
| Raise (e : exn).

Arguments Ok {A} a.
Arguments Raise {A} e.

Definition rbind {A B : Type} (r : result A) (k : A -> result B) : result B :=
  match r with
  | Ok a => k a
  | Raise e => Raise e
  end.

Notation "x <- c ;; k" := (rbind c (fun x => k))
  (at level 61, c at next level, right associativity).

Definition raises {A : Type} (r : result A) : Prop :=
  exists e, r = Raise e.

(** ** Python [str]: length and slicing *)

Fixpoint take (n : nat) (s : string) : string :=
  match n, s with
  | S n', String c s' => String c (take n' s')
  | _, _ => EmptyString
  end.

Fixpoint drop (n : nat) (s : string) : string :=
  match n, s with
  | S n', String _ s' => drop n' s'
  | _, _ => s
  end.

Definition len (s : string) : Z := Z.of_nat (String.length s).

(** The index adjustment Python performs on a slice bound: a negative
    bound counts from the end, and the result is clamped to [0, n]. *)
Definition adjust (pos n : Z) : Z :=
  if pos <? 0 then Z.max 0 (pos + n) else Z.min pos n.

(** [s[:pos]] *)
Definition slice_to (s : string) (pos : Z) : string :=
  take (Z.to_nat (adjust pos (len s))) s.

(** [s[pos:]] *)
Definition slice_from (s : string) (pos : Z) : string :=
  drop (Z.to_nat (adjust pos (len s))) s.

(** [sub in s] for two strings *)
Fixpoint contains (sub s : string) : bool :=
  prefix sub s ||
  match s with
  | EmptyString => false
  | String _ s' => contains sub s'
  end.

(** ** The values of [json.loads] *)

(** A float is either a dyadic number [m * 2^e], an infinity or a NaN;
    only its conversion by [int()] matters here. *)
Inductive pyfloat : Type :=
| Finite (m e : Z)
| Infinity (negative : bool)
| NaN.

Inductive json : Type :=
| JNull
| JBool (b : bool)
| JInt (z : Z)
| JFloat (f : pyfloat)
| JStr (s : string)
| JList (items : list json)
| JObj (members : list (string * json)).

(** A [dict] keeps its members in insertion order; lookup returns the
    first member with the key. *)
Fixpoint lookup (k : string) (members : list (string * json)) : option json :=
  match members with
  | [] => None
  | (k', v) :: rest => if String.eqb k k' then Some v else lookup k rest
  end.

(** [v.get(k, default)]: only a dict has the method. *)
Definition py_get (v : json) (k : string) (default : json) : result json :=
  match v with
  | JObj members =>
      match lookup k members with
      | Some x => Ok x
      | None => Ok default
      end
  | _ => Raise AttributeError
  end.

Definition is_str (s : string) (v : json) : bool :=
  match v with
  | JStr s' => String.eqb s s'
  | _ => false
  end.

(** [k in v] for a string [k]: key test on a dict, substring test on a
    str, membership on a list, [TypeError] on anything else. *)
Definition py_in (k : string) (v : json) : result bool :=
  match v with
  | JObj members =>
      Ok (match lookup k members with Some _ => true | None => false end)
  | JStr s => Ok (contains k s)
  | JList items => Ok (existsb (is_str k) items)
  | _ => Raise TypeError
  end.

(** [v[k]] for a string [k] *)
Definition py_getitem (v : json) (k : string) : result json :=
  match v with
  | JObj members =>
      match lookup k members with
      | Some x => Ok x
      | None => Raise KeyError
      end
  | _ => Raise TypeError
  end.

(** [int(f)] for a float truncates toward zero. *)
Definition float_to_int (f : pyfloat) : result Z :=
  match f with
  | Finite m e =>
      Ok (if 0 <=? e then m * 2 ^ e else Z.quot m (2 ^ (- e)))
  | Infinity _ => Raise OverflowError
  | NaN => Raise ValueError
  end.

(** The elements Python iterates over in [list.extend(v)]. *)
Fixpoint chars (s : string) : list json :=
  match s with
  | EmptyString => []
  | String c s' => JStr (String c EmptyString) :: chars s'
  end.

Definition py_iter (v : json) : result (list json) :=
  match v with
  | JList items => Ok items
  | JStr s => Ok (chars s)
  | JObj members => Ok (map (fun kv => JStr (fst kv)) members)
  | _ => Raise TypeError
  end.

(** ** [list.sort(key=lambda x: x[0], reverse=True)]

    Python's sort is stable, also with [reverse=True]: elements with equal
    keys keep their relative order.  A stable sort has one possible result,
    so the insertion sort below computes what Python computes. *)

Section Sorting.
Context {A : Type}.

Fixpoint insert_desc (x : Z * A) (l : list (Z * A)) : list (Z * A) :=
  match l with
  | [] => [x]
  | y :: l' =>
      if fst x <? fst y then y :: insert_desc x l' else x :: l
  end.

Definition sort_desc (l : list (Z * A)) : list (Z * A) :=
  fold_right insert_desc [] l.

(** [sorted(l, key=lambda x: x[0])], used by the reference splice. *)
Fixpoint insert_asc (x : Z * A) (l : list (Z * A)) : list (Z * A) :=
  match l with
  | [] => [x]
  | y :: l' =>
      if fst y <? fst x then y :: insert_asc x l' else x :: l
  end.

Definition sort_asc (l : list (Z * A)) : list (Z * A) :=
  fold_right insert_asc [] l.
End Sorting.

(** ** [str.splitlines()] *)

Definition LF : ascii := "010"%char.
Definition CR : ascii := "013"%char.

(** The line boundaries among the characters modelled: LF, VT, FF, CR,
    FS, GS, RS and NEL. *)
Definition is_linebreak (c : ascii) : bool :=
  existsb (Ascii.eqb c)
    [LF; "011"; "012"; CR; "028"; "029"; "030"; "133"]%char.

(** [cur] is the line being read; [after_cr] says that the previous
    character was a CR, so that a LF now belongs to the same boundary. *)
Fixpoint split_from (cur : string) (after_cr : bool) (s : string)
  : list string :=
  match s with
  | EmptyString =>
      match cur with
      | EmptyString => []
      | _ => [cur]
      end
  | String c s' =>
      if after_cr && Ascii.eqb c LF then split_from "" false s'
      else if is_linebreak c then cur :: split_from "" (Ascii.eqb c CR) s'
      else split_from (cur ++ String c "") false s'
  end.

Definition splitlines (s : string) : list string := split_from "" false s.

(** ** The world outside the program *)

(** The file system and the two external programs, as the program meets
    them: each call may change the world, and may fail. *)
Record OS : Type := {
  World : Type;
  read_file : string -> World -> result string * World;
  write_file : string -> string -> World -> result unit * World;
  spawn : list string -> option string -> World
          -> result (Z * string * string) * World
}.

(** What the program did, in order. *)
Inductive event : Type :=
| EvRead (path : string)
| EvWrite (path content : string)
| EvSpawn (cmd : list string) (stdin : option string)
| EvPrint (text : string).

Record machine (os : OS) : Type := {
  world : World os;
  trace : list event
}.

Arguments world {os} m.
Arguments trace {os} m.

(** The three return sites of [check_and_fix], named as the terminal
    states of the specification. *)
Inductive terminal : Type :=
| Succeeded (rounds : Z)
| FailedNoFixes (lastOutput : string)
| FailedMaxRounds.

(** The value [check_and_fix] returns at each site. *)
Definition exit_code (t : terminal) : Z :=
  match t with
  | Succeeded _ => 0
  | FailedNoFixes _ => 1
  | FailedMaxRounds => 1
  end.

Definition round_budget : Z := 10.

Definition fmt_cmd : list string := ["node"; "tools/braid-fmt"].
Definition check_cmd (path : string) : list string :=
  ["node"; "tools/braid-check"; path].

Definition clean_message (rounds : Z) : string :=
  "clean after " ++ NilZero.string_of_int (Z.to_int rounds) ++ " round(s)".
Definition max_rounds_message : string := "max rounds reached".
Definition usage_message : string := "usage: tools/llm_autofix.py <file.braid>".

(** ** [apply_fixes] *)

Section Builtins.
(** [int(s)] for a str and [json.loads(line)] belong to the Python
    library, not to this program: they are taken as given. *)
Variable int_of_str : string -> result Z.
Variable json_loads : string -> result json.

(** [int(v)] *)
Definition py_int (v : json) : result Z :=
  match v with
  | JInt z => Ok z
  | JBool b => Ok (if b then 1 else 0)
  | JFloat f => float_to_int f
  | JStr s => int_of_str s
  | _ => Raise TypeError
  end.

(** The first loop of [apply_fixes]: the (position, text) pairs of the
    fixes that carry an edit with both fields, in the order of [fixes]. *)
Fixpoint collect_inserts (fixes : list json) : result (list (Z * json)) :=
  match fixes with
  | [] => Ok []
  | f :: rest =>
      edit <- py_get f "edit" (JObj []) ;;
      has_insert <- py_in "insert" edit ;;
      has_both <- (if has_insert : bool then py_in "at" edit else Ok false) ;;
      if has_both : bool then
        at_ <- py_getitem edit "at" ;;
        pos <- py_int at_ ;;
        text <- py_getitem edit "insert" ;;
        inserts <- collect_inserts rest ;;
        Ok ((pos, text) :: inserts)
      else collect_inserts rest
  end.

(** [src[:pos] + text + src[pos:]]; [str + text] needs [text] to be a str. *)
Definition splice (src : string) (pos : Z) (text : json) : result string :=
  match text with
  | JStr t => Ok (slice_to src pos ++ t ++ slice_from src pos)
  | _ => Raise TypeError
  end.

(** The second loop: each splice is done on the current buffer. *)
Fixpoint apply_inserts (src : string) (inserts : list (Z * json))
  : result string :=
  match inserts with
  | [] => Ok src
  | (pos, text) :: rest =>
      src' <- splice src pos text ;;
      apply_inserts src' rest
  end.

Definition apply_fixes (src : string) (fixes : list json) : result string :=
  inserts <- collect_inserts fixes ;;
  apply_inserts src (sort_desc inserts).

(** ** The diagnostic parsing of [check_and_fix] *)

(** The body of [for line in out.splitlines()]: only a
    [JSONDecodeError] is caught; [fixes] is the list built so far. *)
Fixpoint parse_lines (lines : list string) (fixes : list json)
  : result (list json) :=
  match lines with
  | [] => Ok fixes
  | line :: rest =>
      match json_loads line with
      | Ok d =>
          v <- py_get d "fixes" (JList []) ;;
          items <- py_iter v ;;
          parse_lines rest (fixes ++ items)%list
      | Raise JSONDecodeError => parse_lines rest fixes
      | Raise e => Raise e
      end
  end.

Definition parse_fixes (out : string) : result (list json) :=
  parse_lines (splitlines out) [].

(** ** The fix loop *)

Section Controller.
Variable os : OS.

(** A step of the program: it reads and changes the machine, and
    returns a value or raises. *)
Definition M (A : Type) : Type := machine os -> result A * machine os.

Definition ret {A : Type} (a : A) : M A := fun m => (Ok a, m).

Definition bind {A B : Type} (c : M A) (k : A -> M B) : M B :=
  fun m =>
    match c m with
    | (Ok a, m') => k a m'
    | (Raise e, m') => (Raise e, m')
    end.

Notation "x <-- c ;; k" := (bind c (fun x => k))
  (at level 61, c at next level, right associativity).
Notation "c ;;; k" := (bind c (fun _ => k))
  (at level 61, right associativity).

Definition lift {A : Type} (r : result A) : M A := fun m => (r, m).

Definition emit (ev : event) : M unit :=
  fun m => (Ok tt, {| world := world m; trace := (trace m ++ [ev])%list |}).

Definition on_world {A : Type}
  (f : World os -> result A * World os) : M A :=
  fun m =>
    let (r, w) := f (world m) in
    (r, {| world := w; trace := trace m |}).

(** [open(path, "r").read()] and [open(path, "w").write(src)] *)
Definition read (path : string) : M string :=
  emit (EvRead path) ;;; on_world (read_file os path).

Definition write (path src : string) : M unit :=
  emit (EvWrite path src) ;;; on_world (write_file os path src).

Definition print (text : string) : M unit := emit (EvPrint text).

(** [subprocess.PIPE if input_bytes else None]: the child gets a pipe on
    its input only when the payload is non-empty. *)
Definition piped (input : option string) : option string :=
  match input with
  | Some (String c s) => Some (String c s)
  | _ => None
  end.

(** [run(cmd, input_bytes)] *)
Definition run (cmd : list string) (input : option string)
  : M (Z * string * string) :=
  emit (EvSpawn cmd (piped input)) ;;; on_world (spawn os cmd (piped input)).

(** The body of the [while] loop after [rounds += 1]: [inl] is a
    [return] out of [check_and_fix], [inr] the buffer the next iteration
    starts from. *)
Definition round (path : string) (rounds : Z) (src : string)
  : M (terminal + string) :=
  write path src ;;;
  r <-- run (check_cmd path) None ;;
  let '(rc, out, _) := r in
  if rc =? 0 then
    print (clean_message rounds) ;;;
    ret (inl (Succeeded rounds))
  else
    fixes <-- lift (parse_fixes out) ;;
    match fixes with
    | [] => print out ;;; ret (inl (FailedNoFixes out))
    | _ :: _ =>
        src' <-- lift (apply_fixes src fixes) ;;
        ret (inr src')
    end.

(** The [while rounds < 10] loop.  [fuel] bounds the iterations of the
    model; [None] means the fuel ran out before the loop ended. *)
Fixpoint fix_loop (fuel : nat) (path : string) (rounds : Z) (src : string)
  : M (option terminal) :=
  if rounds <? round_budget then
    match fuel with
    | O => ret None
    | S fuel' =>
        let rounds := rounds + 1 in
        r <-- round path rounds src ;;
        match r with
        | inl t => ret (Some t)
        | inr src' => fix_loop fuel' path rounds src'
        end
    end
  else
    print max_rounds_message ;;;
    ret (Some FailedMaxRounds).

(** The buffer after the formatting step. *)
Definition adopt (src : string) (rc : Z) (formatted : string) : string :=
  if (rc =? 0) && negb (String.eqb formatted "") then formatted else src.

Definition check_and_fix_fuel (fuel : nat) (path : string)
  : M (option terminal) :=
  src <-- read path ;;
  r <-- run fmt_cmd (Some src) ;;
  let '(rc, formatted, _) := r in
  fix_loop fuel path 0 (adopt src rc formatted).

(** One unit of fuel per round of the budget is enough (see
    [fix_loop_enough_fuel]). *)
Definition check_and_fix (path : string) : M (option terminal) :=
  check_and_fix_fuel (Z.to_nat round_budget) path.

(** [main]: the process exit status. *)
Definition main (argv : list string) : M (option Z) :=
  match argv with
  | [_; path] =>
      t <-- check_and_fix path ;;
      ret (option_map exit_code t)
  | _ => print usage_message ;;; ret (Some 2)
  end.

End Controller.

End Builtins.

Arguments M os A : clear implicits.

(** * braid-llm-kit/tools/agent_stub.py: [strip_fences] *)

(** The text before the leftmost occurrence of [sep] in [s] and the text
    after it, as [s.split(sep)] finds them. *)
Fixpoint cut (sep s : string) {struct s} : option (string * string) :=
  if prefix sep s then Some ("", drop (String.length sep) s)
  else
    match s with
    | EmptyString => None
    | String c s' =>
        match cut sep s' with
        | Some (a, b) => Some (String c a, b)
        | None => None
        end
    end.

(** [s.split(sep)] for a non-empty [sep]: cut at the leftmost occurrence
    and go on in what follows it.  Each cut takes at least one character
    away, so a string needs no more cuts than it has characters; [fuel]
    counts them. *)
Fixpoint split_fuel (fuel : nat) (sep s : string) : list string :=
  match cut sep s with
  | None => [s]
  | Some (a, b) =>
      a :: match fuel with
           | O => []
           | S fuel' => split_fuel fuel' sep b
           end
  end.

Definition split (sep s : string) : list string :=
  split_fuel (String.length s) sep s.

(** The white space among the characters modelled: TAB to CR, FS to US,
    the space, NEL and the no-break space. *)
Definition is_space (c : ascii) : bool :=
  let n := nat_of_ascii c in
  ((9 <=? n)%nat && (n <=? 13)%nat) || ((28 <=? n)%nat && (n <=? 32)%nat)
  || (n =? 133)%nat || (n =? 160)%nat.

Fixpoint lstrip (s : string) : string :=
  match s with
  | EmptyString => EmptyString
  | String c s' => if is_space c then lstrip s' else s
  end.

Fixpoint rstrip (s : string) : string :=
  match s with
  | EmptyString => EmptyString
  | String c s' =>
      match rstrip s' with
      | EmptyString => if is_space c then EmptyString else String c EmptyString
      | r => String c r
      end
  end.

(** [s.strip()] *)
Definition strip (s : string) : string := rstrip (lstrip s).

Definition fence : string := "```".

(** [code[len("braid"):]] when [code.startswith("braid")] *)
Definition without_tag (code : string) : string :=
  if prefix "braid" code then drop (String.length "braid") code else code.

Definition strip_fences (s : string) : string :=
  if negb (contains fence s) then s
  else
    match split fence s with
    | _ :: code :: _ => strip (without_tag code)
    | _ => s
    end.


(** * The vocabulary of the properties *)

(** ** One splice, on strings *)

(** [src[:pos] + t + src[pos:]] on strings. *)
Definition insert_at (src : string) (pos : Z) (t : string) : string :=
  slice_to src pos ++ t ++ slice_from src pos.

(** ** Orders on keyed elements *)

Section SortOrders.
Context {A : Type}.
Implicit Types (x y : Z * A).

Definition desc x y : Prop := fst y <= fst x.

Definition asc x y : Prop := fst x <= fst y.

Definition strictly_asc x y : Prop := fst x < fst y.

Definition has_key (k : Z) x : bool := fst x =? k.

End SortOrders.

(** ** Edits *)

(** An edit of the specification: a position and the text to insert. *)
Definition edit : Type := (Z * string)%type.

(** The fix [f] is an object whose "edit" member is an object with the
    integer position of [e] under "at" and its text under "insert". *)
Definition carries (f : json) (e : edit) : Prop :=
  exists fm em,
    f = JObj fm /\
    lookup "edit" fm = Some (JObj em) /\
    lookup "at" em = Some (JInt (fst e)) /\
    lookup "insert" em = Some (JStr (snd e)).

(** The plainest such fix. *)
Definition fix_of (e : edit) : json :=
  JObj [("edit", JObj [("insert", JStr (snd e)); ("at", JInt (fst e))])].

Definition tagged (e : edit) : Z * json := (fst e, JStr (snd e)).

(** The splices of [apply_inserts], on edits. *)
Definition apply_edits (src : string) (edits : list edit) : string :=
  fold_left (fun s e => insert_at s (fst e) (snd e)) edits src.

Definition total_len (edits : list edit) : Z :=
  fold_right (fun e n => len (snd e) + n) 0 edits.

(** A position is valid for a buffer when it lies between 0 and the
    length of the buffer, both included. *)
Definition valid_for (src : string) (e : edit) : Prop :=
  0 <= fst e <= len src.

(** ** The reference splice of the specification *)

(** An exact splice: [pos] is an offset of [buf]. *)
Definition insert_exact (buf : string) (pos : Z) (t : string) : string :=
  take (Z.to_nat pos) buf ++ t ++ drop (Z.to_nat pos) buf.

(** A single pass over edits in ascending order of position; [shift] is
    the total length inserted so far, by which every later position has
    moved. *)
Fixpoint splice_shifted (buf : string) (shift : Z) (edits : list edit)
  : string :=
  match edits with
  | [] => buf
  | e :: rest =>
      splice_shifted (insert_exact buf (fst e + shift) (snd e))
                     (shift + len (snd e)) rest
  end.

Definition reference_splice (src : string) (edits : list edit) : string :=
  splice_shifted src 0 (sort_asc edits).

(** What both computations produce: the pieces of [s] between the
    positions, with the texts in between; [base] is the offset of [s] in
    the original buffer. *)
Fixpoint weave (s : string) (base : Z) (edits : list edit) : string :=
  match edits with
  | [] => s
  | e :: rest =>
      let k := Z.to_nat (fst e - base) in
      take k s ++ snd e ++ weave (drop k s) (fst e) rest
  end.

(** ** Fixes that carry no applicable edit *)

(** The fix is an object whose "edit" member is absent, or is an object
    that lacks "insert" or lacks "at". *)
Definition inapplicable (f : json) : Prop :=
  exists fm,
    f = JObj fm /\
    (lookup "edit" fm = None \/
     exists em,
       lookup "edit" fm = Some (JObj em) /\
       (lookup "insert" em = None \/ lookup "at" em = None)).

(** The fix has an "edit" object with both an "insert" and an "at" member. *)
Definition has_edit_fields (f : json) : Prop :=
  exists fm em,
    f = JObj fm /\
    lookup "edit" fm = Some (JObj em) /\
    lookup "insert" em <> None /\
    lookup "at" em <> None.

(** ** Rounds and traces *)

(** A round is counted by its call of the validator. *)
Definition is_validation (ev : event) : bool :=
  match ev with
  | EvSpawn [_; tool; _] _ => String.eqb tool "tools/braid-check"
  | _ => false
  end.

Definition validations (evs : list event) : nat :=
  List.length (filter is_validation evs).

Definition rounds_left (rounds : Z) : nat := Z.to_nat (round_budget - rounds).

(** ** What the world may be assumed to do *)

Section Scenarios.
Variable iof : string -> result Z.
Variable loads : string -> result json.
Variable os : OS.
Variable path : string.

(** The machine after the events [evs], in the world [w]. *)
Definition logged (m : machine os) (evs : list event) (w : World os)
  : machine os :=
  {| world := w; trace := (trace m ++ evs)%list |}.

(** Writing the file never fails. *)
Definition writes_succeed : Prop :=
  forall content w, exists w', write_file os path content w = (Ok tt, w').

(** In every state of the world the validator runs, exits non-zero, and
    its output parses to a list of fixes that satisfies [Q]. *)
Definition always_rejects_with (Q : list json -> Prop) : Prop :=
  forall w, exists rc out err w' fixes,
    spawn os (check_cmd path) None w = (Ok (rc, out, err), w') /\
    rc <> 0 /\
    parse_fixes loads out = Ok fixes /\
    Q fixes.

(** The file is read and the formatter runs. *)
Definition formatted_from (m : machine os) (src : string) (rc : Z)
  (formatted : string) (w2 : World os) : Prop :=
  exists w1 err,
    read_file os path (world m) = (Ok src, w1) /\
    spawn os fmt_cmd (piped (Some src)) w1 = (Ok (rc, formatted, err), w2).

(** Every round goes on to the next one, keeping the buffer in [P]. *)
Definition always_continues (P : string -> Prop) : Prop :=
  forall rounds src m, P src ->
    exists src' w',
      round iof loads os path rounds src m
      = (Ok (inr src'),
         logged m [EvWrite path src; EvSpawn (check_cmd path) None] w') /\
      P src'.

Definition writes_only (P : string -> Prop) (ev : event) : Prop :=
  match ev with
  | EvWrite _ content => P content
  | _ => True
  end.

End Scenarios.

Arguments logged {os} m evs w.

(** ** Worked examples: their data *)

(** The worked examples give positions as integers, so [int()] never
    meets a string in them: they hold for every [int_of_str], and are
    run with the one that accepts no string at all. *)
Definition no_str_positions : string -> result Z :=
  fun _ => Raise ValueError.

(** The lines of validator output used below.  A JSON text needs the
    double quote, written [dq]. *)
Definition dq : string := String (ascii_of_nat 34) "".

Definition quoted (s : string) : string := dq ++ s ++ dq.

Definition line_with_edit : string :=
  "{" ++ quoted "fixes" ++ ": [{" ++ quoted "edit" ++ ": {"
      ++ quoted "insert" ++ ": " ++ quoted "X" ++ ", "
      ++ quoted "at" ++ ": 0}}]}".

Definition line_with_note : string :=
  "{" ++ quoted "fixes" ++ ": [{" ++ quoted "note" ++ ": "
      ++ quoted "n" ++ "}]}".

Definition line_without_fixes : string :=
  "{" ++ quoted "message" ++ ": " ++ quoted "bad" ++ "}".

(** [json.loads] on the lines the examples use; it is not asked about any
    other line, and answers [JSONDecodeError] there. *)
Definition sample_loads (line : string) : result json :=
  if (line =? line_with_edit)%string then
    Ok (JObj [("fixes", JList [fix_of (0, "X")])])
  else if (line =? line_with_note)%string then
    Ok (JObj [("fixes", JList [JObj [("note", JStr "n")]])])
  else if (line =? line_without_fixes)%string then
    Ok (JObj [("message", JStr "bad")])
  else if (line =? "42")%string then Ok (JInt 42)
  else Raise JSONDecodeError.

(** A world for the examples: the file holds "abc", every write
    succeeds, the formatter gives its input back, and the validator
    rejects every time with the output [out].  The state of the world is
    the number of runs of the validator. *)
Definition rejecting_os (out : string) : OS :=
  {| World := nat;
     read_file := fun _ w => (Ok "abc", w);
     write_file := fun _ _ w => (Ok tt, w);
     spawn := fun cmd stdin w =>
       match cmd with
       | [_; _] =>
           (Ok (0, match stdin with Some s => s | None => "" end, ""), w)
       | _ => (Ok (1, out, ""), S w)
       end |}.

Definition start (os : OS) (w : World os) : machine os :=
  {| world := w; trace := [] |}.

Definition doc : string := "doc.braid".

(** ** More vocabulary: what a batch of fixes leaves of the buffer *)

(** [embeds a b]: [b] is [a] with characters added; no character of [a]
    is lost and their order is kept. *)
Inductive embeds : string -> string -> Prop :=
| embeds_nil : embeds "" ""
| embeds_keep c a b : embeds a b -> embeds (String c a) (String c b)
| embeds_add c a b : embeds a b -> embeds a (String c b).

(** The texts of the edits, one after the other. *)
Definition texts (edits : list edit) : string :=
  fold_right (fun e acc => snd e ++ acc) "" edits.

(** A fix seen by the first loop of [apply_fixes]: it gives an edit, or
    it is skipped. *)
Definition reads_as (f : json) (oe : option edit) : Prop :=
  match oe with
  | Some e => carries f e
  | None => inapplicable f
  end.

Definition kept (oes : list (option edit)) : list edit :=
  flat_map (fun oe => match oe with Some e => [e] | None => [] end) oes.

Definition is_text (v : json) : bool :=
  match v with
  | JStr _ => true
  | _ => false
  end.

(** ** More vocabulary: the output of the validator *)

Fixpoint no_break (line : string) : bool :=
  match line with
  | EmptyString => true
  | String c rest => negb (is_linebreak c) && no_break rest
  end.

(** The text a program prints when it writes each line followed by a
    newline. *)
Definition unlines (lines : list string) : string :=
  fold_right (fun line acc => line ++ String LF acc) "" lines.

(** What one line adds to [fixes]: nothing when [json.loads] rejects it
    or when it is an object without "fixes", the elements of the list
    when it is an object whose "fixes" is a list. *)
Definition line_gives (loads : string -> result json) (line : string)
  (items : list json) : Prop :=
  (loads line = Raise JSONDecodeError /\ items = []) \/
  exists members,
    loads line = Ok (JObj members) /\
    ((lookup "fixes" members = None /\ items = []) \/
     lookup "fixes" members = Some (JList items)).

(** ** More vocabulary: the shape of a run of the loop *)

(** [loop_run path rounds evs r]: what the loop entered with the counter
    at [rounds] can do, as the events it adds to the trace and its
    result. *)
Inductive loop_run (path : string)
  : Z -> list event -> result (option terminal) -> Prop :=
| lr_budget rounds :
    round_budget <= rounds ->
    loop_run path rounds [EvPrint max_rounds_message]
      (Ok (Some FailedMaxRounds))
| lr_fuel rounds :
    rounds < round_budget ->
    loop_run path rounds [] (Ok None)
| lr_write_fails rounds src e :
    rounds < round_budget ->
    loop_run path rounds [EvWrite path src] (Raise e)
| lr_raises rounds src e :
    rounds < round_budget ->
    loop_run path rounds
      [EvWrite path src; EvSpawn (check_cmd path) None] (Raise e)
| lr_clean rounds src :
    rounds < round_budget ->
    loop_run path rounds
      [EvWrite path src; EvSpawn (check_cmd path) None;
       EvPrint (clean_message (rounds + 1))]
      (Ok (Some (Succeeded (rounds + 1))))
| lr_no_fixes rounds src out :
    rounds < round_budget ->
    loop_run path rounds
      [EvWrite path src; EvSpawn (check_cmd path) None; EvPrint out]
      (Ok (Some (FailedNoFixes out)))
| lr_next rounds src evs r :
    rounds < round_budget ->
    loop_run path (rounds + 1) evs r ->
    loop_run path rounds
      (EvWrite path src :: EvSpawn (check_cmd path) None :: evs) r.

(** Every run of the validator in [evs] comes directly after a write of
    the file. *)
Definition written_first (path : string) (evs : list event) : Prop :=
  forall pre post,
    evs = (pre ++ EvSpawn (check_cmd path) None :: post)%list ->
    exists pre' content, pre = (pre' ++ [EvWrite path content])%list.

(** [evs] does not begin with a run of the validator. *)
Definition starts_ok (path : string) (evs : list event) : Prop :=
  forall post, evs <> EvSpawn (check_cmd path) None :: post.

(** The events of the loop: writes of the file, runs of the validator,
    prints. *)
Definition loop_event (path : string) (ev : event) : Prop :=
  (exists content, ev = EvWrite path content) \/
  ev = EvSpawn (check_cmd path) None \/
  (exists text, ev = EvPrint text).

Section Settling.
Variable iof : string -> result Z.
Variable loads : string -> result json.
Variable os : OS.
Variable path : string.

(** [settles n src w]: from the buffer [src] in the world [w], the file
    can be written and the validator rejects [n] times, each time
    offering fixes that [apply_fixes] applies, and then accepts. *)
Inductive settles : nat -> string -> World os -> Prop :=
| settles_now src w w1 out err w2 :
    write_file os path src w = (Ok tt, w1) ->
    spawn os (check_cmd path) None w1 = (Ok (0, out, err), w2) ->
    settles 0 src w
| settles_later n src w w1 rc out err w2 fixes src' :
    write_file os path src w = (Ok tt, w1) ->
    spawn os (check_cmd path) None w1 = (Ok (rc, out, err), w2) ->
    rc <> 0 ->
    parse_fixes loads out = Ok fixes ->
    fixes <> [] ->
    apply_fixes iof src fixes = Ok src' ->
    settles n src' w2 ->
    settles (S n) src w.

End Settling.

(** A world in which the validator rejects with the output [out] the
    first [n] times it runs and accepts afterwards; the rest is as in
    [rejecting_os]. *)
Definition patient_os (n : nat) (out : string) : OS :=
  {| World := nat;
     read_file := fun _ w => (Ok "abc", w);
     write_file := fun _ _ w => (Ok tt, w);
     spawn := fun cmd stdin w =>
       match cmd with
       | [_; _] =>
           (Ok (0, match stdin with Some s => s | None => "" end, ""), w)
       | _ =>
           if (w <? n)%nat then (Ok (1, out, ""), S w)
           else (Ok (0, "", ""), S w)
       end |}.

(** ** More vocabulary: fenced code *)

Definition backtick : ascii := "`"%char.

Fixpoint no_backtick (s : string) : bool :=
  match s with
  | EmptyString => true
  | String c rest => negb (Ascii.eqb c backtick) && no_backtick rest
  end.

(** ** More worked examples: their data *)

(** A world whose file holds [content] (or cannot be read when there is
    none) and whose programs, when [tools] is set, start, give their
    input back and exit with status 0; they cannot be started
    otherwise. *)
Definition plain_os (content : option string) (tools : bool) : OS :=
  {| World := nat;
     read_file := fun _ w =>
       (match content with Some s => Ok s | None => Raise OSError end, w);
     write_file := fun _ _ w => (Ok tt, w);
     spawn := fun _ stdin w =>
       if tools then
         (Ok (0, match stdin with Some s => s | None => "" end, ""), S w)
       else (Raise OSError, w) |}.


(** * Properties *)

(** ** Strings *)

Lemma append_nil_r (s : string) : s ++ "" = s.
Proof. induction s as [|c s IH]; simpl; [reflexivity | now rewrite IH]. Qed.

Lemma append_assoc (a b c : string) : (a ++ b) ++ c = a ++ b ++ c.
Proof. induction a as [|x a IH]; simpl; [reflexivity | now rewrite IH]. Qed.

Lemma length_append (a b : string) :
  String.length (a ++ b) = (String.length a + String.length b)%nat.
Proof. induction a as [|x a IH]; simpl; [reflexivity | now rewrite IH]. Qed.

Lemma len_append (a b : string) : len (a ++ b) = len a + len b.
Proof. unfold len. rewrite length_append. lia. Qed.

Lemma len_nonneg (s : string) : 0 <= len s.
Proof. unfold len. lia. Qed.

Lemma take_drop (n : nat) (s : string) : take n s ++ drop n s = s.
Proof.
  revert s. induction n as [|n IH]; intros [|c s]; simpl; try reflexivity.
  now rewrite IH.
Qed.

Lemma take_all (n : nat) (s : string) :
  (String.length s <= n)%nat -> take n s = s.
Proof.
  revert s. induction n as [|n IH]; intros [|c s] H; simpl in *;
    try reflexivity; try lia.
  rewrite IH by lia. reflexivity.
Qed.

Lemma drop_all (n : nat) (s : string) :
  (String.length s <= n)%nat -> drop n s = "".
Proof.
  revert s. induction n as [|n IH]; intros [|c s] H; simpl in *;
    try reflexivity; try lia.
  apply IH. lia.
Qed.

Lemma take_app (a b : string) (k : nat) :
  take (String.length a + k) (a ++ b) = a ++ take k b.
Proof.
  induction a as [|x a IH]; simpl.
  - reflexivity.
  - now rewrite IH.
Qed.

Lemma drop_app (a b : string) (k : nat) :
  drop (String.length a + k) (a ++ b) = drop k b.
Proof.
  induction a as [|x a IH]; simpl.
  - reflexivity.
  - exact IH.
Qed.

Lemma length_take (n : nat) (s : string) :
  (n <= String.length s)%nat -> String.length (take n s) = n.
Proof.
  revert s. induction n as [|n IH]; intros [|c s] H; simpl in *;
    try reflexivity; try lia.
  rewrite IH by lia. reflexivity.
Qed.

Lemma length_drop (n : nat) (s : string) :
  String.length (drop n s) = (String.length s - n)%nat.
Proof.
  revert s. induction n as [|n IH]; intros [|c s]; simpl; try reflexivity.
  apply IH.
Qed.

(** ** One splice *)

Lemma adjust_range (pos n : Z) : 0 <= n -> 0 <= adjust pos n <= n.
Proof. unfold adjust. destruct (pos <? 0) eqn:E; lia. Qed.

Lemma slice_to_from (s : string) (pos : Z) :
  slice_to s pos ++ slice_from s pos = s.
Proof. unfold slice_to, slice_from. apply take_drop. Qed.

Lemma len_insert_at (src : string) (pos : Z) (t : string) :
  len (insert_at src pos t) = len src + len t.
Proof.
  unfold insert_at. rewrite !len_append.
  rewrite <- (slice_to_from src pos) at 3. rewrite len_append. lia.
Qed.

Lemma insert_at_valid (src : string) (pos : Z) (t : string) :
  0 <= pos <= len src ->
  insert_at src pos t = take (Z.to_nat pos) src ++ t ++ drop (Z.to_nat pos) src.
Proof.
  intros H. unfold insert_at, slice_to, slice_from, adjust.
  destruct (pos <? 0) eqn:E; [lia|].
  rewrite Z.min_l by lia. reflexivity.
Qed.

Lemma insert_at_beyond (src : string) (pos : Z) (t : string) :
  len src < pos -> insert_at src pos t = src ++ t.
Proof.
  intros H. pose proof (len_nonneg src) as Hn.
  unfold insert_at, slice_to, slice_from, adjust.
  destruct (pos <? 0) eqn:E; [lia|].
  rewrite Z.min_r by lia. unfold len. rewrite Nat2Z.id.
  rewrite take_all, drop_all by lia. now rewrite append_nil_r.
Qed.

Lemma insert_at_negative (src : string) (pos : Z) (t : string) :
  pos < 0 ->
  let k := Z.to_nat (Z.max 0 (len src + pos)) in
  insert_at src pos t = take k src ++ t ++ drop k src.
Proof.
  intros H k. subst k. unfold insert_at, slice_to, slice_from, adjust.
  destruct (pos <? 0) eqn:E; [|lia].
  now rewrite (Z.add_comm pos).
Qed.

Lemma splice_str (src : string) (pos : Z) (t : string) :
  splice src pos (JStr t) = Ok (insert_at src pos t).
Proof. reflexivity. Qed.

(** ** The two sorts are stable sorts *)

Section SortingFacts.
Context {A : Type}.
Implicit Types (x y : Z * A) (l : list (Z * A)).

Lemma insert_desc_perm x l : Permutation (insert_desc x l) (x :: l).
Proof.
  induction l as [|y l IH]; simpl.
  - apply Permutation_refl.
  - destruct (fst x <? fst y).
    + rewrite IH. apply perm_swap.
    + apply Permutation_refl.
Qed.

Lemma sort_desc_perm l : Permutation (sort_desc l) l.
Proof.
  induction l as [|x l IH]; simpl.
  - apply perm_nil.
  - rewrite insert_desc_perm. now apply perm_skip.
Qed.

Lemma insert_asc_perm x l : Permutation (insert_asc x l) (x :: l).
Proof.
  induction l as [|y l IH]; simpl.
  - apply Permutation_refl.
  - destruct (fst y <? fst x).
    + rewrite IH. apply perm_swap.
    + apply Permutation_refl.
Qed.

Lemma sort_asc_perm l : Permutation (sort_asc l) l.
Proof.
  induction l as [|x l IH]; simpl.
  - apply perm_nil.
  - rewrite insert_asc_perm. now apply perm_skip.
Qed.

Lemma insert_desc_sorted x l :
  StronglySorted desc l -> StronglySorted desc (insert_desc x l).
Proof.
  induction 1 as [|y l Hs IH Hy]; simpl.
  - repeat constructor.
  - destruct (fst x <? fst y) eqn:E.
    + constructor; [exact IH|].
      rewrite (insert_desc_perm x l). constructor; [|exact Hy].
      unfold desc. lia.
    + constructor; [now constructor|].
      constructor; [unfold desc; lia|].
      eapply Forall_impl; [|exact Hy]. unfold desc. intros. lia.
Qed.

Lemma sort_desc_sorted l : StronglySorted desc (sort_desc l).
Proof.
  induction l as [|x l IH]; simpl.
  - constructor.
  - now apply insert_desc_sorted.
Qed.

Lemma insert_asc_sorted x l :
  StronglySorted asc l -> StronglySorted asc (insert_asc x l).
Proof.
  induction 1 as [|y l Hs IH Hy]; simpl.
  - repeat constructor.
  - destruct (fst y <? fst x) eqn:E.
    + constructor; [exact IH|].
      rewrite (insert_asc_perm x l). constructor; [|exact Hy].
      unfold asc. lia.
    + constructor; [now constructor|].
      constructor; [unfold asc; lia|].
      eapply Forall_impl; [|exact Hy]. unfold asc. intros. lia.
Qed.

Lemma sort_asc_sorted l : StronglySorted asc (sort_asc l).
Proof.
  induction l as [|x l IH]; simpl.
  - constructor.
  - now apply insert_asc_sorted.
Qed.

(** Stability: the elements of one key come out in the order they came in. *)
Lemma insert_desc_stable k x l :
  filter (has_key k) (insert_desc x l) = filter (has_key k) (x :: l).
Proof.
  induction l as [|y l IH]; [reflexivity|].
  cbn [insert_desc]. destruct (fst x <? fst y) eqn:E; [|reflexivity].
  cbn [filter] in *. rewrite IH. unfold has_key.
  destruct (fst x =? k) eqn:Ex, (fst y =? k) eqn:Ey; try reflexivity. lia.
Qed.

Lemma sort_desc_stable k l :
  filter (has_key k) (sort_desc l) = filter (has_key k) l.
Proof.
  induction l as [|x l IH]; [reflexivity|].
  cbn [sort_desc fold_right]. rewrite insert_desc_stable.
  cbn [filter]. fold (sort_desc l). now rewrite IH.
Qed.

Lemma insert_asc_stable k x l :
  filter (has_key k) (insert_asc x l) = filter (has_key k) (x :: l).
Proof.
  induction l as [|y l IH]; [reflexivity|].
  cbn [insert_asc]. destruct (fst y <? fst x) eqn:E; [|reflexivity].
  cbn [filter] in *. rewrite IH. unfold has_key.
  destruct (fst x =? k) eqn:Ex, (fst y =? k) eqn:Ey; try reflexivity. lia.
Qed.

Lemma sort_asc_stable k l :
  filter (has_key k) (sort_asc l) = filter (has_key k) l.
Proof.
  induction l as [|x l IH]; [reflexivity|].
  cbn [sort_asc fold_right]. rewrite insert_asc_stable.
  cbn [filter]. fold (sort_asc l). now rewrite IH.
Qed.

(** With pairwise distinct keys there is one sorted arrangement. *)
Lemma sorted_app_last (R : Z * A -> Z * A -> Prop) l x :
  StronglySorted R l -> Forall (fun y => R y x) l ->
  StronglySorted R (l ++ [x])%list.
Proof.
  induction 1 as [|y l Hs IH Hy]; intros Hx; simpl.
  - repeat constructor.
  - inversion Hx; subst. constructor; [now apply IH|].
    apply Forall_app. split; [exact Hy | now constructor].
Qed.

Lemma desc_rev_asc l : StronglySorted desc l -> StronglySorted asc (rev l).
Proof.
  induction 1 as [|y l Hs IH Hy]; simpl.
  - constructor.
  - apply sorted_app_last; [exact IH|].
    apply Forall_rev. exact Hy.
Qed.

Lemma asc_strict l :
  StronglySorted asc l -> NoDup (map fst l) -> StronglySorted strictly_asc l.
Proof.
  induction 1 as [|y l Hs IH Hy]; intros Hnd; simpl in *.
  - constructor.
  - inversion Hnd as [|? ? Hnotin Hnd']; subst.
    constructor; [now apply IH|].
    rewrite Forall_forall in *. intros z Hz.
    specialize (Hy z Hz). unfold asc, strictly_asc in *.
    assert (fst y <> fst z) by (intros Heq; apply Hnotin; rewrite Heq;
                                now apply in_map).
    lia.
Qed.

Lemma strictly_asc_unique l1 l2 :
  StronglySorted strictly_asc l1 -> StronglySorted strictly_asc l2 ->
  Permutation l1 l2 -> l1 = l2.
Proof.
  intros H1. revert l2.
  induction H1 as [|a l1 Hs1 IH Ha]; intros l2 H2 Hp.
  - apply Permutation_nil in Hp. now subst.
  - destruct H2 as [|b l2 Hs2 Hb].
    + apply Permutation_sym, Permutation_nil in Hp. discriminate.
    + assert (a = b) as ->.
      { assert (In a (b :: l2)) as Hin1
          by (eapply Permutation_in; [exact Hp | now left]).
        assert (In b (a :: l1)) as Hin2
          by (eapply Permutation_in;
              [apply Permutation_sym; exact Hp | now left]).
        destruct Hin1 as [->|Hin1]; [reflexivity|].
        destruct Hin2 as [->|Hin2]; [reflexivity|].
        rewrite Forall_forall in Ha, Hb.
        specialize (Ha _ Hin2). specialize (Hb _ Hin1).
        unfold strictly_asc in *. lia. }
      f_equal. apply IH; [exact Hs2|].
      eapply Permutation_cons_inv. exact Hp.
Qed.

Lemma sort_desc_distinct l l' :
  NoDup (map fst l) -> Permutation l l' ->
  sort_desc l' = rev (sort_asc l).
Proof.
  intros Hnd Hp.
  rewrite <- (rev_involutive (sort_desc l')). f_equal.
  apply strictly_asc_unique.
  - apply asc_strict.
    + apply desc_rev_asc, sort_desc_sorted.
    + eapply Permutation_NoDup; [|exact Hnd].
      apply Permutation_map.
      rewrite <- Permutation_rev, sort_desc_perm. exact Hp.
  - apply asc_strict.
    + apply sort_asc_sorted.
    + eapply Permutation_NoDup; [|exact Hnd].
      apply Permutation_map. now rewrite sort_asc_perm.
  - rewrite <- Permutation_rev, sort_desc_perm, sort_asc_perm.
    now apply Permutation_sym.
Qed.

End SortingFacts.

(** ** Edits *)

Lemma carries_fix_of (e : edit) : carries (fix_of e) e.
Proof. exists [("edit", JObj [("insert", JStr (snd e)); ("at", JInt (fst e))])],
         [("insert", JStr (snd e)); ("at", JInt (fst e))].
       repeat split.
Qed.

Lemma collect_carried iof (fixes : list json) (edits : list edit) :
  Forall2 carries fixes edits ->
  collect_inserts iof fixes = Ok (map tagged edits).
Proof.
  induction 1 as [|f e fixes edits (fm & em & -> & Hed & Hat & Hins) _ IH].
  - reflexivity.
  - cbn [collect_inserts py_get rbind]. rewrite Hed.
    cbn [py_in rbind]. rewrite Hins. cbn [rbind]. rewrite Hat.
    cbn [py_getitem rbind]. rewrite Hat, Hins. cbn [py_int rbind].
    rewrite IH. reflexivity.
Qed.

Lemma insert_desc_tagged (e : edit) (l : list edit) :
  insert_desc (tagged e) (map tagged l) = map tagged (insert_desc e l).
Proof.
  induction l as [|y l IH]; [reflexivity|].
  cbn [map insert_desc].
  change (fst (tagged e)) with (fst e). change (fst (tagged y)) with (fst y).
  destruct (fst e <? fst y); [|reflexivity].
  cbn [map]. now rewrite <- IH.
Qed.

Lemma sort_desc_tagged (l : list edit) :
  sort_desc (map tagged l) = map tagged (sort_desc l).
Proof.
  induction l as [|e l IH]; [reflexivity|].
  cbn [map sort_desc fold_right]. fold (sort_desc (map tagged l)).
  rewrite IH. apply insert_desc_tagged.
Qed.

Lemma apply_inserts_tagged (src : string) (l : list edit) :
  apply_inserts src (map tagged l) = Ok (apply_edits src l).
Proof.
  revert src. induction l as [|[p t] l IH]; intros src; [reflexivity|].
  cbn [map tagged fst snd apply_inserts splice rbind]. rewrite IH.
  reflexivity.
Qed.

(** On fixes that carry edits, [apply_fixes] raises nothing: it splices
    the edits in descending order of position. *)
Lemma apply_fixes_carried iof (src : string) (fixes : list json)
  (edits : list edit) :
  Forall2 carries fixes edits ->
  apply_fixes iof src fixes = Ok (apply_edits src (sort_desc edits)).
Proof.
  intros H. unfold apply_fixes. rewrite (collect_carried iof fixes edits H).
  cbn [rbind]. rewrite sort_desc_tagged. apply apply_inserts_tagged.
Qed.

Lemma len_apply_edits (src : string) (l : list edit) :
  len (apply_edits src l) = len src + total_len l.
Proof.
  revert src. induction l as [|e l IH]; intros src.
  - cbn. lia.
  - cbn [apply_edits fold_left total_len fold_right].
    fold (apply_edits (insert_at src (fst e) (snd e)) l). rewrite IH.
    rewrite len_insert_at. fold (total_len l). lia.
Qed.

Lemma total_len_perm (l l' : list edit) :
  Permutation l l' -> total_len l = total_len l'.
Proof.
  induction 1 as [|e l l' _ IH|e1 e2 l|l1 l2 l3 _ IH1 _ IH2]; cbn.
  - reflexivity.
  - fold (total_len l) (total_len l'). lia.
  - fold (total_len l). lia.
  - congruence.
Qed.

(** ** The reference splice of the specification *)

Lemma insert_at_after (a b : string) (pos : Z) (t : string) :
  len a = pos -> insert_at (a ++ b) pos t = a ++ t ++ b.
Proof.
  intros <-. rewrite insert_at_valid
    by (rewrite len_append; pose proof (len_nonneg a); pose proof (len_nonneg b); lia).
  unfold len. rewrite Nat2Z.id.
  rewrite <- (Nat.add_0_r (String.length a)).
  rewrite take_app, drop_app. cbn. now rewrite append_nil_r.
Qed.

Lemma apply_edits_snoc (src : string) (l : list edit) (e : edit) :
  apply_edits src (l ++ [e])%list = insert_at (apply_edits src l) (fst e) (snd e).
Proof. unfold apply_edits. now rewrite fold_left_app. Qed.

Lemma within_tail (s : string) (base p : Z) (rest : list edit) :
  base <= p <= base + len s ->
  Forall (asc (p, "")) rest ->
  Forall (fun e => base <= fst e <= base + len s) rest ->
  Forall (fun e => p <= fst e <= p + len (drop (Z.to_nat (p - base)) s)) rest.
Proof.
  intros Hp Hsorted Hin. rewrite Forall_forall in *. intros e He.
  specialize (Hsorted e He). specialize (Hin e He). unfold asc in Hsorted.
  cbn in Hsorted. unfold len in *. rewrite length_drop. lia.
Qed.

Lemma descending_weave (edits : list edit) : forall (pre s : string),
  StronglySorted asc edits ->
  Forall (fun e => len pre <= fst e <= len pre + len s) edits ->
  apply_edits (pre ++ s) (rev edits) = pre ++ weave s (len pre) edits.
Proof.
  induction edits as [|[p t] rest IH]; intros pre s Hs Hin; [reflexivity|].
  apply StronglySorted_inv in Hs as [Hs Hp].
  inversion Hin as [|? ? Hpt Hrest]; subst. cbn [fst snd] in *.
  cbn [rev]. rewrite apply_edits_snoc. cbn [fst snd].
  set (k := Z.to_nat (p - len pre)).
  assert (Hk : (k <= String.length s)%nat) by (unfold len in *; lia).
  assert (Hlen : len (pre ++ take k s) = p).
  { rewrite len_append. unfold len at 2. rewrite length_take by exact Hk.
    unfold len in *. lia. }
  rewrite <- (take_drop k s) at 1. rewrite <- append_assoc.
  rewrite (IH (pre ++ take k s) (drop k s) Hs).
  - rewrite Hlen. rewrite insert_at_after by exact Hlen.
    cbn [weave fst snd]. fold k. now rewrite append_assoc.
  - rewrite Hlen. apply (within_tail s (len pre) p rest); assumption.
Qed.

Lemma shifted_weave (edits : list edit) : forall (done s : string) (base : Z),
  StronglySorted asc edits ->
  Forall (fun e => base <= fst e <= base + len s) edits ->
  splice_shifted (done ++ s) (len done - base) edits
  = done ++ weave s base edits.
Proof.
  induction edits as [|[p t] rest IH]; intros done s base Hs Hin;
    [reflexivity|].
  apply StronglySorted_inv in Hs as [Hs Hp].
  inversion Hin as [|? ? Hpt Hrest]; subst. cbn [fst snd] in *.
  cbn [splice_shifted weave fst snd].
  set (k := Z.to_nat (p - base)).
  assert (Hk : (k <= String.length s)%nat) by (unfold len in *; lia).
  assert (Hpos : Z.to_nat (p + (len done - base))
                 = (String.length done + k)%nat) by (unfold len in *; lia).
  unfold insert_exact. rewrite Hpos, take_app, drop_app.
  replace ((done ++ take k s) ++ t ++ drop k s)
    with ((done ++ take k s ++ t) ++ drop k s)
    by (now rewrite !append_assoc).
  replace (len done - base + len t) with (len (done ++ take k s ++ t) - p).
  - rewrite (IH _ (drop k s) p Hs).
    + now rewrite !append_assoc.
    + apply (within_tail s base p rest); assumption.
  - rewrite !len_append. unfold len at 2. rewrite length_take by exact Hk.
    unfold len in *. lia.
Qed.

(** Descending application and the reference agree on any list sorted
    in ascending order of position. *)
Lemma descending_is_reference (src : string) (edits : list edit) :
  StronglySorted asc edits ->
  Forall (valid_for src) edits ->
  apply_edits src (rev edits) = splice_shifted src 0 edits.
Proof.
  intros Hs Hv.
  pose proof (descending_weave edits "" src Hs Hv) as Hd.
  pose proof (shifted_weave edits "" src 0 Hs Hv) as Hr.
  exact (eq_trans Hd (eq_sym Hr)).
Qed.

(** * The edit applier *)

Lemma sort_desc_head_greatest (l : list edit) (e : edit) (rest : list edit) :
  sort_desc l = e :: rest -> Forall (fun x => fst x <= fst e) l.
Proof.
  intros Heq. pose proof (sort_desc_sorted l) as Hs.
  pose proof (sort_desc_perm l) as Hp. rewrite Heq in Hs, Hp.
  apply StronglySorted_inv in Hs as [_ Hall].
  rewrite Forall_forall in *. intros x Hx.
  apply (Permutation_in _ (Permutation_sym Hp)) in Hx as [<-|Hx].
  - lia.
  - apply (Hall x Hx).
Qed.

(** Scenario 1 of the specification. *)
Lemma scenario_single_edit iof :
  apply_fixes iof "abc" [fix_of (1, "X")] = Ok "aXbc".
Proof. reflexivity. Qed.

(** Edits at one position come out in the reverse of the order in which
    they were listed: the sort keeps their order, and each is spliced in
    front of the one before. *)
Lemma ties_come_out_reversed iof :
  apply_fixes iof "abc" [fix_of (1, "X"); fix_of (1, "Y")] = Ok "aYXbc".
Proof. reflexivity. Qed.

(** C1, as the claim states it, fails: the buffer "abc" has length 3, the
    edit asks for position 5, and [apply_fixes] raises nothing; it returns
    "abcX". *)
Lemma C1_counterexample :
  Forall2 carries [fix_of (5, "X")] [(5, "X")] /\
  len "abc" < 5 /\
  apply_fixes no_str_positions "abc" [fix_of (5, "X")] = Ok "abcX" /\
  ~ raises (apply_fixes no_str_positions "abc" [fix_of (5, "X")]).
Proof.
  split; [repeat constructor; apply carries_fix_of|].
  split; [reflexivity|].
  split; [reflexivity|].
  intros [e He]. discriminate He.
Qed.

(** C1, amended: when an edit sequence contains an edit whose position is
    strictly greater than the length of the buffer, [apply_fixes] signals
    no error.  It returns the buffer obtained by splicing the edits in
    descending order of position; the first edit spliced has a position
    beyond the end of the buffer and its text is appended at the end; and
    in general a splice at a position beyond the end of the buffer it is
    applied against appends the text. *)
Theorem C1_beyond_end_is_clamped iof (src : string) (fixes : list json)
  (edits : list edit) :
  Forall2 carries fixes edits ->
  Exists (fun e => len src < fst e) edits ->
  apply_fixes iof src fixes = Ok (apply_edits src (sort_desc edits)) /\
  (exists e rest,
      sort_desc edits = e :: rest /\ len src < fst e /\
      apply_edits src (sort_desc edits) = apply_edits (src ++ snd e) rest) /\
  (forall cur p t, len cur < p -> insert_at cur p t = cur ++ t).
Proof.
  intros Hc Hex. split; [now apply apply_fixes_carried|].
  split; [|intros; now apply insert_at_beyond].
  apply Exists_exists in Hex as (x & Hx & Hbig).
  destruct (sort_desc edits) as [|e rest] eqn:Hsort.
  - pose proof (sort_desc_perm edits) as Hp. rewrite Hsort in Hp.
    apply Permutation_nil in Hp. subst. contradiction.
  - pose proof (sort_desc_head_greatest edits e rest Hsort) as Hall.
    rewrite Forall_forall in Hall. specialize (Hall x Hx).
    exists e, rest. split; [reflexivity|]. split; [lia|].
    cbn [apply_edits fold_left]. rewrite insert_at_beyond by lia.
    reflexivity.
Qed.

Lemma C1_beyond_end_is_clamped_witness :
  Forall2 carries [fix_of (5, "X")] [(5, "X")] /\
  Exists (fun e : edit => len "abc" < fst e) [(5, "X")] /\
  apply_fixes no_str_positions "abc" [fix_of (5, "X")]
  = Ok (apply_edits "abc" (sort_desc [(5, "X")])).
Proof.
  assert (Hc : Forall2 carries [fix_of (5, "X")] [(5, "X")])
    by (repeat constructor; apply carries_fix_of).
  assert (Hex : Exists (fun e : edit => len "abc" < fst e) [(5, "X")])
    by (constructor; reflexivity).
  split; [exact Hc|]. split; [exact Hex|].
  exact (proj1 (C1_beyond_end_is_clamped no_str_positions "abc" _ _ Hc Hex)).
Defined.

(** C2, as the claim states it, fails when two edits share a position:
    the two listings of the same two valid edits give different buffers,
    so no reference can agree with both, and the reference splice differs
    from [apply_fixes] on the first listing. *)
Lemma C2_counterexample :
  Forall (valid_for "abc") [(1, "X"); (1, "Y")] /\
  Permutation [(1, "X"); (1, "Y")] [(1, "Y"); (1, "X")] /\
  apply_fixes no_str_positions "abc" [fix_of (1, "X"); fix_of (1, "Y")]
  = Ok "aYXbc" /\
  apply_fixes no_str_positions "abc" [fix_of (1, "Y"); fix_of (1, "X")]
  = Ok "aXYbc" /\
  reference_splice "abc" [(1, "X"); (1, "Y")] = "aXYbc".
Proof.
  split; [repeat constructor; cbn; lia|].
  split; [apply perm_swap|].
  repeat split.
Qed.

(** C2, amended: for every buffer and every sequence of insertion edits
    whose positions are valid for that buffer and pairwise distinct,
    in whatever order the edits are listed, [apply_fixes] (descending
    order, each splice on the current buffer) returns the buffer of the
    reference single-pass splice with cumulative shift; in particular
    "abc" with "Y" at 0 and "Z" at 3 gives "YabcZ". *)
Theorem C2_offset_stability iof (src : string) (edits edits' : list edit)
  (fixes : list json) :
  Forall (valid_for src) edits ->
  NoDup (map fst edits) ->
  Permutation edits edits' ->
  Forall2 carries fixes edits' ->
  apply_fixes iof src fixes = Ok (reference_splice src edits) /\
  apply_fixes iof "abc" [fix_of (0, "Y"); fix_of (3, "Z")] = Ok "YabcZ".
Proof.
  intros Hv Hnd Hp Hc. split; [|reflexivity].
  rewrite (apply_fixes_carried iof src fixes edits' Hc).
  rewrite (sort_desc_distinct edits edits' Hnd Hp).
  unfold reference_splice. f_equal.
  apply descending_is_reference; [apply sort_asc_sorted|].
  rewrite Forall_forall in *. intros e He. apply Hv.
  eapply Permutation_in; [apply sort_asc_perm | exact He].
Qed.

Lemma C2_offset_stability_witness :
  Forall (valid_for "abc") [(0, "Y"); (3, "Z")] /\
  NoDup (map fst [(0, "Y"); (3, "Z")]) /\
  Permutation [(0, "Y"); (3, "Z")] [(3, "Z"); (0, "Y")] /\
  Forall2 carries [fix_of (3, "Z"); fix_of (0, "Y")] [(3, "Z"); (0, "Y")] /\
  apply_fixes no_str_positions "abc" [fix_of (3, "Z"); fix_of (0, "Y")]
  = Ok (reference_splice "abc" [(0, "Y"); (3, "Z")]).
Proof.
  assert (Hv : Forall (valid_for "abc") [(0, "Y"); (3, "Z")])
    by (repeat constructor; cbn; discriminate).
  assert (Hnd : NoDup (map fst [(0, "Y"); (3, "Z")])).
  { cbn. constructor.
    - intros [H|[]]. discriminate H.
    - constructor; [intros [] | constructor]. }
  assert (Hp : Permutation [(0, "Y"); (3, "Z")] [(3, "Z"); (0, "Y")])
    by apply perm_swap.
  assert (Hc : Forall2 carries [fix_of (3, "Z"); fix_of (0, "Y")]
                 [(3, "Z"); (0, "Y")])
    by (repeat constructor; apply carries_fix_of).
  repeat (split; [assumption|]).
  exact (proj1 (C2_offset_stability no_str_positions "abc" _ _ _
                  Hv Hnd Hp Hc)).
Defined.

(** C6: for every buffer and every sequence of insertion edits whose
    positions are valid for it, in whatever order the edits are listed,
    [apply_fixes] returns a buffer whose length is the length of the
    input plus the sum of the lengths of the inserted texts. *)
Theorem C6_length_invariant iof (src : string) (edits edits' : list edit)
  (fixes : list json) :
  Forall (valid_for src) edits ->
  Permutation edits edits' ->
  Forall2 carries fixes edits' ->
  exists out,
    apply_fixes iof src fixes = Ok out /\
    len out = len src + total_len edits.
Proof.
  intros _ Hp Hc. eexists.
  split; [exact (apply_fixes_carried iof src fixes edits' Hc)|].
  rewrite len_apply_edits. f_equal.
  rewrite (total_len_perm edits edits' Hp).
  apply total_len_perm, sort_desc_perm.
Qed.

Lemma C6_length_invariant_witness :
  Forall (valid_for "abc") [(0, "Y"); (3, "ZZ")] /\
  Permutation [(0, "Y"); (3, "ZZ")] [(3, "ZZ"); (0, "Y")] /\
  Forall2 carries [fix_of (3, "ZZ"); fix_of (0, "Y")] [(3, "ZZ"); (0, "Y")] /\
  exists out,
    apply_fixes no_str_positions "abc" [fix_of (3, "ZZ"); fix_of (0, "Y")]
    = Ok out /\
    len out = len "abc" + total_len [(0, "Y"); (3, "ZZ")].
Proof.
  assert (Hv : Forall (valid_for "abc") [(0, "Y"); (3, "ZZ")])
    by (repeat constructor; cbn; discriminate).
  assert (Hp : Permutation [(0, "Y"); (3, "ZZ")] [(3, "ZZ"); (0, "Y")])
    by apply perm_swap.
  assert (Hc : Forall2 carries [fix_of (3, "ZZ"); fix_of (0, "Y")]
                 [(3, "ZZ"); (0, "Y")])
    by (repeat constructor; apply carries_fix_of).
  repeat (split; [assumption|]).
  exact (C6_length_invariant no_str_positions "abc" _ _ _ Hv Hp Hc).
Defined.

(** C7: applying the empty edit sequence returns the buffer unchanged. *)
Theorem C7_empty_is_noop iof (src : string) :
  apply_fixes iof src [] = Ok src.
Proof. reflexivity. Qed.

(** C10: an edit whose "at" is a negative integer is accepted without
    any error, and its text is spliced at the position counted from the
    end of the buffer, as a Python slice counts it (not before the start
    of the buffer); a sequence that contains such an edit raises nothing
    either. *)
Theorem C10_negative_position iof (src : string) (f : json) (p : Z)
  (t : string) :
  p < 0 ->
  carries f (p, t) ->
  (let k := Z.to_nat (Z.max 0 (len src + p)) in
   apply_fixes iof src [f] = Ok (take k src ++ t ++ drop k src)) /\
  (forall fixes edits,
      Forall2 carries fixes edits -> In (p, t) edits ->
      exists out, apply_fixes iof src fixes = Ok out).
Proof.
  intros Hneg Hc. split.
  - intros k. rewrite (apply_fixes_carried iof src [f] [(p, t)])
      by (repeat constructor; exact Hc).
    cbn [sort_desc fold_right insert_desc apply_edits fold_left fst snd].
    f_equal. now apply insert_at_negative.
  - intros fixes edits Hcs _. eexists.
    exact (apply_fixes_carried iof src fixes edits Hcs).
Qed.

Lemma C10_negative_position_witness :
  -1 < 0 /\
  carries (fix_of (-1, "X")) (-1, "X") /\
  apply_fixes no_str_positions "abc" [fix_of (-1, "X")] = Ok "abXc".
Proof.
  assert (Hneg : -1 < 0) by reflexivity.
  split; [exact Hneg|]. split; [apply carries_fix_of|].
  exact (proj1 (C10_negative_position no_str_positions "abc" _ (-1) "X"
                  Hneg (carries_fix_of (-1, "X")))).
Defined.

(** * The fix loop *)

Lemma validations_app (l1 l2 : list event) :
  validations (l1 ++ l2)%list = (validations l1 + validations l2)%nat.
Proof. unfold validations. now rewrite filter_app, length_app. Qed.

Section ControllerFacts.
Variable iof : string -> result Z.
Variable loads : string -> result json.
Variable os : OS.
Variable path : string.

Lemma logged_logged (m : machine os) evs1 w1 evs2 w2 :
  logged (logged m evs1 w1) evs2 w2 = logged m (evs1 ++ evs2)%list w2.
Proof. unfold logged. cbn. now rewrite app_assoc. Qed.

Lemma write_eval src m r w :
  write_file os path src (world m) = (r, w) ->
  write os path src m = (r, logged m [EvWrite path src] w).
Proof.
  intros H. unfold write, bind, emit, on_world. cbn. rewrite H.
  destruct r; reflexivity.
Qed.

Lemma read_eval m r w :
  read_file os path (world m) = (r, w) ->
  read os path m = (r, logged m [EvRead path] w).
Proof.
  intros H. unfold read, bind, emit, on_world. cbn. rewrite H.
  destruct r; reflexivity.
Qed.

Lemma run_eval cmd input m r w :
  spawn os cmd (piped input) (world m) = (r, w) ->
  run os cmd input m = (r, logged m [EvSpawn cmd (piped input)] w).
Proof.
  intros H. unfold run, bind, emit, on_world. cbn. rewrite H.
  destruct r; reflexivity.
Qed.

Lemma print_eval text m :
  print os text m = (Ok tt, logged m [EvPrint text] (world m)).
Proof. reflexivity. Qed.

(** What one round does, given what the file system and the validator
    answer. *)
Lemma round_eval rounds src m w1 w2 rc out err :
  write_file os path src (world m) = (Ok tt, w1) ->
  spawn os (check_cmd path) None w1 = (Ok (rc, out, err), w2) ->
  round iof loads os path rounds src m =
  let m2 := logged m [EvWrite path src; EvSpawn (check_cmd path) None] w2 in
  if rc =? 0 then
    (Ok (inl (Succeeded rounds)), logged m2 [EvPrint (clean_message rounds)] w2)
  else
    match parse_fixes loads out with
    | Raise e => (Raise e, m2)
    | Ok [] => (Ok (inl (FailedNoFixes out)), logged m2 [EvPrint out] w2)
    | Ok (f :: fs) =>
        match apply_fixes iof src (f :: fs) with
        | Raise e => (Raise e, m2)
        | Ok src' => (Ok (inr src'), m2)
        end
    end.
Proof.
  intros Hw Hs. unfold round, bind at 1.
  rewrite (write_eval src m _ _ Hw). unfold bind at 1.
  rewrite (run_eval (check_cmd path) None (logged m _ w1) _ w2 Hs).
  rewrite logged_logged. cbn [app piped].
  destruct (rc =? 0).
  - unfold bind. rewrite print_eval. reflexivity.
  - unfold bind, lift. destruct (parse_fixes loads out) as [[|f fs]|e].
    + reflexivity.
    + destruct (apply_fixes iof src (f :: fs)); reflexivity.
    + reflexivity.
Qed.

(** Whatever the world does, a round extends the trace, and calls the
    validator at most once. *)
Lemma round_trace rounds src m r m' :
  round iof loads os path rounds src m = (r, m') ->
  exists evs,
    trace m' = (trace m ++ evs)%list /\ (validations evs <= 1)%nat.
Proof.
  destruct (write_file os path src (world m)) as [[[]|e] w1] eqn:Hw.
  2:{ unfold round, bind at 1. rewrite (write_eval src m _ _ Hw).
      intros [= <- <-]. eexists. split; [reflexivity|]. cbn. lia. }
  destruct (spawn os (check_cmd path) None w1) as [[[[rc out] err]|e] w2]
    eqn:Hs.
  2:{ unfold round, bind at 1. rewrite (write_eval src m _ _ Hw).
      unfold bind at 1.
      rewrite (run_eval (check_cmd path) None (logged m _ w1) _ w2 Hs).
      rewrite logged_logged.
      intros [= <- <-]. eexists. split; [reflexivity|]. cbn. lia. }
  rewrite (round_eval rounds src m w1 w2 rc out err Hw Hs). cbv zeta.
  destruct (rc =? 0).
  - rewrite logged_logged. intros [= <- <-].
    eexists. split; [reflexivity|]. cbn. lia.
  - destruct (parse_fixes loads out) as [[|f fs]|e].
    + rewrite logged_logged. intros [= <- <-].
      eexists. split; [reflexivity|]. cbn. lia.
    + destruct (apply_fixes iof src (f :: fs)); intros [= <- <-];
        (eexists; split; [reflexivity|]; cbn; lia).
    + intros [= <- <-]. eexists. split; [reflexivity|]. cbn. lia.
Qed.

Lemma fix_loop_done fuel rounds src m :
  round_budget <= rounds ->
  fix_loop iof loads os fuel path rounds src m
  = (Ok (Some FailedMaxRounds),
     logged m [EvPrint max_rounds_message] (world m)).
Proof.
  intros H. destruct fuel; cbn [fix_loop];
    (destruct (rounds <? round_budget) eqn:E; [lia | reflexivity]).
Qed.

Lemma fix_loop_step fuel rounds src m :
  rounds < round_budget ->
  fix_loop iof loads os (S fuel) path rounds src m =
  match round iof loads os path (rounds + 1) src m with
  | (Ok (inl t), m1) => (Ok (Some t), m1)
  | (Ok (inr src'), m1) =>
      fix_loop iof loads os fuel path (rounds + 1) src' m1
  | (Raise e, m1) => (Raise e, m1)
  end.
Proof.
  intros H. cbn [fix_loop].
  destruct (rounds <? round_budget) eqn:E; [|lia].
  unfold bind.
  destruct (round iof loads os path (rounds + 1) src m) as [[[t|src']|e] m1];
    reflexivity.
Qed.

(** The loop calls the validator at most once per round left. *)
Lemma fix_loop_trace fuel : forall rounds src m r m',
  fix_loop iof loads os fuel path rounds src m = (r, m') ->
  exists evs,
    trace m' = (trace m ++ evs)%list /\
    (validations evs <= rounds_left rounds)%nat.
Proof.
  induction fuel as [|fuel IH]; intros rounds src m r m'.
  - cbn [fix_loop]. destruct (rounds <? round_budget);
      intros [= <- <-]; eexists.
    + split; [symmetry; apply app_nil_r|]. cbn. lia.
    + split; [reflexivity|]. cbn. lia.
  - destruct (Z.ltb_spec rounds round_budget) as [Hlt|Hge].
    2:{ rewrite fix_loop_done by exact Hge. intros [= <- <-].
        eexists. split; [reflexivity|]. cbn. lia. }
    rewrite fix_loop_step by exact Hlt.
    destruct (round iof loads os path (rounds + 1) src m)
      as [[[t|src']|e] m1] eqn:Hr;
      apply round_trace in Hr as (evs1 & Ht1 & Hv1).
    + intros [= <- <-]. exists evs1. split; [exact Ht1|].
      unfold rounds_left, round_budget in *. lia.
    + intros Hloop. apply IH in Hloop as (evs2 & Ht2 & Hv2).
      exists (evs1 ++ evs2)%list. split.
      * rewrite Ht2, Ht1. now rewrite app_assoc.
      * rewrite validations_app.
        unfold rounds_left, round_budget in *. lia.
    + intros [= <- <-]. exists evs1. split; [exact Ht1|].
      unfold rounds_left, round_budget in *. lia.
Qed.

(** With one unit of fuel per round left the loop ends by itself, and more
    fuel changes nothing. *)
Lemma fix_loop_enough_fuel fuel : forall fuel' rounds src m,
  (rounds_left rounds <= fuel)%nat ->
  (rounds_left rounds <= fuel')%nat ->
  fix_loop iof loads os fuel path rounds src m
  = fix_loop iof loads os fuel' path rounds src m /\
  fst (fix_loop iof loads os fuel path rounds src m) <> Ok None.
Proof.
  induction fuel as [|fuel IH]; intros fuel' rounds src m H H'.
  - assert (round_budget <= rounds) by (unfold rounds_left in H; lia).
    rewrite !fix_loop_done by assumption. split; [reflexivity|discriminate].
  - destruct (Z.ltb_spec rounds round_budget) as [Hlt|Hge].
    2:{ rewrite !fix_loop_done by assumption.
        split; [reflexivity|discriminate]. }
    destruct fuel' as [|fuel']; [unfold rounds_left in H'; lia|].
    rewrite !fix_loop_step by exact Hlt.
    destruct (round iof loads os path (rounds + 1) src m)
      as [[[t|src']|e] m1].
    + split; [reflexivity|discriminate].
    + apply IH; unfold rounds_left in *; lia.
    + split; [reflexivity|discriminate].
Qed.

(** The formatting step, given what the file system and the formatter
    answer. *)
Lemma check_and_fix_eval fuel m src w1 rc formatted err w2 :
  read_file os path (world m) = (Ok src, w1) ->
  spawn os fmt_cmd (piped (Some src)) w1 = (Ok (rc, formatted, err), w2) ->
  check_and_fix_fuel iof loads os fuel path m
  = fix_loop iof loads os fuel path 0 (adopt src rc formatted)
      (logged m [EvRead path; EvSpawn fmt_cmd (piped (Some src))] w2).
Proof.
  intros Hr Hs. unfold check_and_fix_fuel, bind at 1.
  rewrite (read_eval m _ _ Hr). unfold bind at 1.
  rewrite (run_eval fmt_cmd (Some src) (logged m _ w1) _ w2 Hs).
  now rewrite logged_logged.
Qed.

Lemma check_and_fix_read_raises fuel m e w1 :
  read_file os path (world m) = (Raise e, w1) ->
  check_and_fix_fuel iof loads os fuel path m
  = (Raise e, logged m [EvRead path] w1).
Proof.
  intros Hr. unfold check_and_fix_fuel, bind at 1.
  now rewrite (read_eval m _ _ Hr).
Qed.

Lemma check_and_fix_fmt_raises fuel m src w1 e w2 :
  read_file os path (world m) = (Ok src, w1) ->
  spawn os fmt_cmd (piped (Some src)) w1 = (Raise e, w2) ->
  check_and_fix_fuel iof loads os fuel path m
  = (Raise e, logged m [EvRead path; EvSpawn fmt_cmd (piped (Some src))] w2).
Proof.
  intros Hr Hs. unfold check_and_fix_fuel, bind at 1.
  rewrite (read_eval m _ _ Hr). unfold bind at 1.
  rewrite (run_eval fmt_cmd (Some src) (logged m _ w1) _ w2 Hs).
  now rewrite logged_logged.
Qed.

Lemma check_and_fix_trace fuel m r m' :
  check_and_fix_fuel iof loads os fuel path m = (r, m') ->
  exists evs,
    trace m' = (trace m ++ evs)%list /\
    (validations evs <= Z.to_nat round_budget)%nat.
Proof.
  destruct (read_file os path (world m)) as [[src|e] w1] eqn:Hr.
  2:{ rewrite (check_and_fix_read_raises fuel m e w1 Hr).
      intros [= <- <-]. eexists. split; [reflexivity|]. cbn. lia. }
  destruct (spawn os fmt_cmd (piped (Some src)) w1)
    as [[[[rc formatted] err]|e] w2] eqn:Hs.
  2:{ rewrite (check_and_fix_fmt_raises fuel m src w1 e w2 Hr Hs).
      intros [= <- <-]. eexists. split; [reflexivity|]. cbn. lia. }
  rewrite (check_and_fix_eval fuel m src w1 rc formatted err w2 Hr Hs).
  intros Hloop. apply fix_loop_trace in Hloop as (evs & Ht & Hv).
  eexists. split.
  - rewrite Ht. cbn [logged trace]. rewrite <- app_assoc. reflexivity.
  - rewrite validations_app. cbn in *. lia.
Qed.

Lemma check_and_fix_enough_fuel fuel m :
  (Z.to_nat round_budget <= fuel)%nat ->
  check_and_fix_fuel iof loads os fuel path m
  = check_and_fix iof loads os path m /\
  fst (check_and_fix iof loads os path m) <> Ok None.
Proof.
  intros Hfuel. unfold check_and_fix.
  destruct (read_file os path (world m)) as [[src|e] w1] eqn:Hr.
  2:{ rewrite !(check_and_fix_read_raises _ m e w1 Hr).
      split; [reflexivity|discriminate]. }
  destruct (spawn os fmt_cmd (piped (Some src)) w1)
    as [[[[rc formatted] err]|e] w2] eqn:Hs.
  2:{ rewrite !(check_and_fix_fmt_raises _ m src w1 e w2 Hr Hs).
      split; [reflexivity|discriminate]. }
  rewrite !(check_and_fix_eval _ m src w1 rc formatted err w2 Hr Hs).
  split.
  - apply (fix_loop_enough_fuel fuel (Z.to_nat round_budget));
      unfold rounds_left, round_budget in *; lia.
  - apply (fix_loop_enough_fuel (Z.to_nat round_budget)
             (Z.to_nat round_budget));
      unfold rounds_left, round_budget in *; lia.
Qed.

(** A round in which the validator exits with status 0 ends the loop at
    the "clean" site, with the number of the round. *)
Lemma accepted_round fuel rounds src m w1 w2 out err :
  rounds < round_budget ->
  write_file os path src (world m) = (Ok tt, w1) ->
  spawn os (check_cmd path) None w1 = (Ok (0, out, err), w2) ->
  fix_loop iof loads os (S fuel) path rounds src m
  = (Ok (Some (Succeeded (rounds + 1))),
     logged m [EvWrite path src; EvSpawn (check_cmd path) None;
               EvPrint (clean_message (rounds + 1))] w2).
Proof.
  intros Hlt Hw Hs. rewrite fix_loop_step by exact Hlt.
  rewrite (round_eval (rounds + 1) src m w1 w2 0 out err Hw Hs).
  cbv zeta. cbn [Z.eqb]. now rewrite logged_logged.
Qed.

(** ** Validators that always reject *)

Lemma loop_exhausts (P : string -> Prop) :
  always_continues iof loads os path P ->
  forall fuel rounds src m,
    P src ->
    (rounds_left rounds <= fuel)%nat ->
    exists evs w',
      fix_loop iof loads os fuel path rounds src m
      = (Ok (Some FailedMaxRounds),
         logged m (evs ++ [EvPrint max_rounds_message])%list w') /\
      validations evs = rounds_left rounds /\
      Forall (writes_only P) evs.
Proof.
  intros Hcont.
  induction fuel as [|fuel IH]; intros rounds src m HP Hfuel.
  - rewrite fix_loop_done by (unfold rounds_left in Hfuel; lia).
    exists [], (world m). repeat split; [|constructor].
    change (validations []) with 0%nat. unfold rounds_left in *. lia.
  - destruct (Z.ltb_spec rounds round_budget) as [Hlt|Hge].
    2:{ rewrite fix_loop_done by exact Hge.
        exists [], (world m). repeat split; [|constructor].
        change (validations []) with 0%nat. unfold rounds_left in *. lia. }
    rewrite fix_loop_step by exact Hlt.
    destruct (Hcont (rounds + 1) src m HP) as (src' & w1 & -> & HP').
    destruct (IH (rounds + 1) src'
                (logged m [EvWrite path src; EvSpawn (check_cmd path) None] w1)
                HP') as (evs & w2 & -> & Hv & Hw).
    { unfold rounds_left in *. lia. }
    exists ([EvWrite path src; EvSpawn (check_cmd path) None] ++ evs)%list, w2.
    split; [|split].
    + rewrite logged_logged. now rewrite app_assoc.
    + rewrite validations_app, Hv.
      change (validations [EvWrite path src; EvSpawn (check_cmd path) None])
        with 1%nat.
      unfold rounds_left, round_budget in *. lia.
    + repeat constructor; assumption.
Qed.

Lemma rejected_with_edits_continues :
  writes_succeed os path ->
  always_rejects_with loads os path
    (fun fixes => fixes <> [] /\ exists edits, Forall2 carries fixes edits) ->
  always_continues iof loads os path (fun _ => True).
Proof.
  intros Hw Hv rounds src m _.
  destruct (Hw src (world m)) as (w1 & Hw1).
  destruct (Hv w1) as (rc & out & err & w2 & fixes & Hs & Hrc & Hp & Hne & edits & Hc).
  exists (apply_edits src (sort_desc edits)), w2. split; [|exact I].
  rewrite (round_eval rounds src m w1 w2 rc out err Hw1 Hs). cbv zeta.
  destruct (Z.eqb_spec rc 0) as [|_]; [contradiction|].
  rewrite Hp. destruct fixes as [|f fs]; [contradiction|].
  now rewrite (apply_fixes_carried iof src (f :: fs) edits Hc).
Qed.

(** ** Fixes that carry no applicable edit *)

Lemma collect_inapplicable (fixes : list json) :
  Forall inapplicable fixes -> collect_inserts iof fixes = Ok [].
Proof.
  induction 1 as [|f fixes (fm & -> & Hcase) _ IH]; [reflexivity|].
  cbn [collect_inserts py_get rbind].
  destruct Hcase as [Hnone | (em & Hed & Hmiss)].
  - rewrite Hnone. cbn. exact IH.
  - rewrite Hed. cbn [rbind py_in].
    destruct Hmiss as [Hins | Hat].
    + rewrite Hins. cbn. exact IH.
    + rewrite Hat. destruct (lookup "insert" em); cbn; exact IH.
Qed.

Lemma apply_fixes_inapplicable (src : string) (fixes : list json) :
  Forall inapplicable fixes -> apply_fixes iof src fixes = Ok src.
Proof.
  intros H. unfold apply_fixes. now rewrite (collect_inapplicable fixes H).
Qed.

Lemma rejected_with_inapplicable_continues (src0 : string) :
  writes_succeed os path ->
  always_rejects_with loads os path
    (fun fixes => fixes <> [] /\ Forall inapplicable fixes) ->
  always_continues iof loads os path (eq src0).
Proof.
  intros Hw Hv rounds src m <-.
  destruct (Hw src0 (world m)) as (w1 & Hw1).
  destruct (Hv w1)
    as (rc & out & err & w2 & fixes & Hs & Hrc & Hp & Hne & Hin).
  exists src0, w2. split; [|reflexivity].
  rewrite (round_eval rounds src0 m w1 w2 rc out err Hw1 Hs). cbv zeta.
  destruct (Z.eqb_spec rc 0) as [|_]; [contradiction|].
  rewrite Hp. destruct fixes as [|f fs]; [contradiction|].
  now rewrite (apply_fixes_inapplicable src0 (f :: fs) Hin).
Qed.

(** ** The claims about the loop *)

(** C4: whatever the file system, the formatter and the validator do,
    [check_and_fix] ends by itself (the fuel of the model never runs out,
    and more fuel changes nothing) after at most 10 calls of the
    validator; and when every write succeeds and the validator always
    rejects while offering at least one edit, it ends at the
    "max rounds reached" return after exactly 10 calls of the validator. *)
Theorem C4_halts_within_budget :
  (forall m, exists r m' evs,
      check_and_fix iof loads os path m = (r, m') /\
      r <> Ok None /\
      trace m' = (trace m ++ evs)%list /\
      (validations evs <= 10)%nat /\
      forall fuel, (10 <= fuel)%nat ->
        check_and_fix_fuel iof loads os fuel path m = (r, m')) /\
  (writes_succeed os path ->
   always_rejects_with loads os path
     (fun fixes => fixes <> [] /\ exists edits, Forall2 carries fixes edits) ->
   forall m src rc formatted w2,
     formatted_from os path m src rc formatted w2 ->
     exists evs w',
       check_and_fix iof loads os path m
       = (Ok (Some FailedMaxRounds),
          logged m (evs ++ [EvPrint max_rounds_message])%list w') /\
       validations evs = 10%nat).
Proof.
  split.
  - intros m.
    destruct (check_and_fix iof loads os path m) as [r m'] eqn:Hrun.
    pose proof Hrun as Htr. apply check_and_fix_trace in Htr as (evs & Ht & Hv).
    exists r, m', evs. repeat split; try assumption.
    + pose proof (check_and_fix_enough_fuel 10 m (Nat.le_refl _)) as [_ Hn].
      now rewrite Hrun in Hn.
    + intros fuel Hfuel. rewrite <- Hrun.
      now apply check_and_fix_enough_fuel.
  - intros Hw Hv m src rc formatted w2 (w1 & err & Hr & Hs).
    unfold check_and_fix.
    rewrite (check_and_fix_eval _ m src w1 rc formatted err w2 Hr Hs).
    destruct (loop_exhausts (fun _ => True)
                (rejected_with_edits_continues Hw Hv)
                (Z.to_nat round_budget) 0 (adopt src rc formatted)
                (logged m [EvRead path; EvSpawn fmt_cmd (piped (Some src))] w2)
                I (Nat.le_refl _))
      as (evs & w' & -> & Hval & _).
    exists ([EvRead path; EvSpawn fmt_cmd (piped (Some src))] ++ evs)%list, w'.
    split.
    + rewrite logged_logged. now rewrite app_assoc.
    + rewrite validations_app, Hval. reflexivity.
Qed.

(** C5: when in some round the validator exits non-zero and no fix
    record is parsed from its output (the list that the code tests with
    [not fixes] is empty), the loop returns in that round at the
    "no fixes" site after printing the validator's raw output; a
    validator that always rejects without a fix record makes
    [check_and_fix] return there in round 1, after one call of the
    validator, and not at "max rounds reached".  The condition is on the
    fix records, not on the edits extracted from them. *)
Theorem C5_no_fixes_ends_the_loop :
  (forall fuel rounds src m w1 w2 rc out err,
      rounds < round_budget ->
      write_file os path src (world m) = (Ok tt, w1) ->
      spawn os (check_cmd path) None w1 = (Ok (rc, out, err), w2) ->
      rc <> 0 ->
      parse_fixes loads out = Ok [] ->
      fix_loop iof loads os (S fuel) path rounds src m
      = (Ok (Some (FailedNoFixes out)),
         logged m [EvWrite path src; EvSpawn (check_cmd path) None;
                   EvPrint out] w2)) /\
  (writes_succeed os path ->
   always_rejects_with loads os path (fun fixes => fixes = []) ->
   forall m src rc formatted w2,
     formatted_from os path m src rc formatted w2 ->
     exists out w',
       check_and_fix iof loads os path m
       = (Ok (Some (FailedNoFixes out)),
          logged m [EvRead path; EvSpawn fmt_cmd (piped (Some src));
                    EvWrite path (adopt src rc formatted);
                    EvSpawn (check_cmd path) None; EvPrint out] w') /\
       exit_code (FailedNoFixes out) = 1).
Proof.
  assert (Hround : forall fuel rounds src m w1 w2 rc out err,
      rounds < round_budget ->
      write_file os path src (world m) = (Ok tt, w1) ->
      spawn os (check_cmd path) None w1 = (Ok (rc, out, err), w2) ->
      rc <> 0 ->
      parse_fixes loads out = Ok [] ->
      fix_loop iof loads os (S fuel) path rounds src m
      = (Ok (Some (FailedNoFixes out)),
         logged m [EvWrite path src; EvSpawn (check_cmd path) None;
                   EvPrint out] w2)).
  { intros fuel rounds src m w1 w2 rc out err Hlt Hw Hs Hrc Hp.
    rewrite fix_loop_step by exact Hlt.
    rewrite (round_eval (rounds + 1) src m w1 w2 rc out err Hw Hs). cbv zeta.
    destruct (Z.eqb_spec rc 0) as [|_]; [contradiction|].
    rewrite Hp. now rewrite logged_logged. }
  split; [exact Hround|].
  intros Hw Hv m src rc formatted w2 (w1 & err & Hr & Hs).
  unfold check_and_fix.
  rewrite (check_and_fix_eval _ m src w1 rc formatted err w2 Hr Hs).
  set (m0 := logged m [EvRead path; EvSpawn fmt_cmd (piped (Some src))] w2).
  destruct (Hw (adopt src rc formatted) (world m0)) as (w3 & Hw3).
  destruct (Hv w3) as (rc' & out & err' & w4 & fixes & Hs' & Hrc & Hp & ->).
  exists out, w4. split; [|reflexivity].
  change (Z.to_nat round_budget) with 10%nat.
  rewrite (Hround 9%nat 0 _ m0 w3 w4 rc' out err' eq_refl Hw3 Hs' Hrc Hp).
  unfold m0. now rewrite logged_logged.
Qed.

(** C8: the buffer the loop starts from is the formatter's output when
    the formatter exits with status 0 and its output is not empty, and
    the original buffer in every other case; in both cases the loop
    goes on from there. *)
Theorem C8_formatter_output_adopted :
  forall fuel m src rc formatted w2,
    formatted_from os path m src rc formatted w2 ->
    exists buf,
      check_and_fix_fuel iof loads os fuel path m
      = fix_loop iof loads os fuel path 0 buf
          (logged m [EvRead path; EvSpawn fmt_cmd (piped (Some src))] w2) /\
      (rc = 0 /\ formatted <> "" -> buf = formatted) /\
      (rc <> 0 \/ formatted = "" -> buf = src).
Proof.
  intros fuel m src rc formatted w2 (w1 & err & Hr & Hs).
  exists (adopt src rc formatted). split; [|split].
  - exact (check_and_fix_eval fuel m src w1 rc formatted err w2 Hr Hs).
  - intros [-> Hne]. unfold adopt. cbn.
    destruct (String.eqb_spec formatted ""); [contradiction|reflexivity].
  - intros [Hrc | ->]; unfold adopt.
    + destruct (Z.eqb_spec rc 0); [contradiction|reflexivity].
    + cbn. now rewrite andb_false_r.
Qed.

(** C9, amended: when every fix of a non-empty parsed list is an object
    whose "edit" member is absent or is an object lacking "insert" or
    "at", [apply_fixes] skips them all and returns the buffer unchanged;
    the loop counts the round and goes on with the same buffer instead of
    returning at "no fixes"; and a validator that always rejects while
    offering only such fixes makes [check_and_fix] call it 10 times,
    writing the same buffer each time, and return at
    "max rounds reached". *)
Theorem C9_inapplicable_fixes_use_up_the_budget :
  (forall src fixes,
      Forall inapplicable fixes -> apply_fixes iof src fixes = Ok src) /\
  (forall fuel rounds src m w1 w2 rc out err fixes,
      rounds < round_budget ->
      write_file os path src (world m) = (Ok tt, w1) ->
      spawn os (check_cmd path) None w1 = (Ok (rc, out, err), w2) ->
      rc <> 0 ->
      parse_fixes loads out = Ok fixes ->
      fixes <> [] ->
      Forall inapplicable fixes ->
      fix_loop iof loads os (S fuel) path rounds src m
      = fix_loop iof loads os fuel path (rounds + 1) src
          (logged m [EvWrite path src; EvSpawn (check_cmd path) None] w2)) /\
  (writes_succeed os path ->
   always_rejects_with loads os path
     (fun fixes => fixes <> [] /\ Forall inapplicable fixes) ->
   forall m src rc formatted w2,
     formatted_from os path m src rc formatted w2 ->
     exists evs w',
       check_and_fix iof loads os path m
       = (Ok (Some FailedMaxRounds),
          logged m ([EvRead path; EvSpawn fmt_cmd (piped (Some src))]
                    ++ evs ++ [EvPrint max_rounds_message])%list w') /\
       validations evs = 10%nat /\
       Forall (writes_only (eq (adopt src rc formatted))) evs).
Proof.
  split; [exact apply_fixes_inapplicable|]. split.
  - intros fuel rounds src m w1 w2 rc out err fixes Hlt Hw Hs Hrc Hp Hne Hin.
    rewrite fix_loop_step by exact Hlt.
    rewrite (round_eval (rounds + 1) src m w1 w2 rc out err Hw Hs). cbv zeta.
    destruct (Z.eqb_spec rc 0) as [|_]; [contradiction|].
    rewrite Hp. destruct fixes as [|f fs]; [contradiction|].
    now rewrite (apply_fixes_inapplicable src (f :: fs) Hin).
  - intros Hw Hv m src rc formatted w2 (w1 & err & Hr & Hs).
    unfold check_and_fix.
    rewrite (check_and_fix_eval _ m src w1 rc formatted err w2 Hr Hs).
    destruct (loop_exhausts (eq (adopt src rc formatted))
                (rejected_with_inapplicable_continues _ Hw Hv)
                (Z.to_nat round_budget) 0 (adopt src rc formatted)
                (logged m [EvRead path; EvSpawn fmt_cmd (piped (Some src))] w2)
                eq_refl (Nat.le_refl _))
      as (evs & w' & -> & Hval & Hwr).
    exists evs, w'. split; [|split].
    + now rewrite logged_logged.
    + rewrite Hval. reflexivity.
    + exact Hwr.
Qed.

End ControllerFacts.

(** * The diagnostic parser *)

(** A line that [json.loads] rejects is dropped. *)
Lemma undecodable_line_dropped loads (line : string) (rest : list string)
  (fixes : list json) :
  loads line = Raise JSONDecodeError ->
  parse_lines loads (line :: rest) fixes = parse_lines loads rest fixes.
Proof. intros H. cbn [parse_lines]. now rewrite H. Qed.

(** A line that decodes to an object adds the elements of its "fixes"
    list, and nothing when the object has no "fixes". *)
Lemma record_line_extends loads (line : string) (rest : list string)
  (fixes : list json) (members : list (string * json)) :
  loads line = Ok (JObj members) ->
  parse_lines loads (line :: rest) fixes =
  match lookup "fixes" members with
  | None => parse_lines loads rest fixes
  | Some v => items <- py_iter v ;; parse_lines loads rest (fixes ++ items)%list
  end.
Proof.
  intros H. cbn [parse_lines]. rewrite H. cbn [py_get rbind].
  destruct (lookup "fixes" members); cbn [rbind py_iter].
  - reflexivity.
  - now rewrite app_nil_r.
Qed.

(** C3, the code at the failing input: a line that [json.loads] decodes
    to a value that is not an object (a number, a string, a list, [null])
    is not dropped; the parse of the whole output raises
    [AttributeError], whatever the other lines are. *)
Theorem C3_non_record_line_raises loads (line : string) (rest : list string)
  (fixes : list json) (v : json) :
  loads line = Ok v ->
  (forall members, v <> JObj members) ->
  parse_lines loads (line :: rest) fixes = Raise AttributeError.
Proof.
  intros H Hv. cbn [parse_lines]. rewrite H.
  destruct v; try reflexivity. now destruct (Hv members).
Qed.

Lemma C3_non_record_line_raises_witness :
  sample_loads "42" = Ok (JInt 42) /\
  (forall members, JInt 42 <> JObj members) /\
  parse_fixes sample_loads "42" = Raise AttributeError.
Proof.
  assert (Hv : forall members, JInt 42 <> JObj members)
    by (intros members; discriminate).
  split; [reflexivity|]. split; [exact Hv|].
  exact (C3_non_record_line_raises sample_loads "42" [] [] (JInt 42)
           eq_refl Hv).
Defined.

(** The failing input of C3 through the whole tool: the validator
    prints the line 42 and [check_and_fix] ends with an uncaught
    [AttributeError] in round 1. *)
Lemma number_line_crashes_the_tool :
  check_and_fix no_str_positions sample_loads (rejecting_os "42") doc
    (start (rejecting_os "42") 0%nat)
  = (Raise AttributeError,
     logged (start (rejecting_os "42") 0%nat)
       [EvRead doc; EvSpawn fmt_cmd (Some "abc"); EvWrite doc "abc";
        EvSpawn (check_cmd doc) None] 1%nat).
Proof. reflexivity. Qed.

(** * The claims about the loop, on the examples *)

Lemma rejecting_os_writes (out : string) :
  writes_succeed (rejecting_os out) doc.
Proof. intros content w. exists w. reflexivity. Defined.

Lemma rejecting_os_formats (out : string) :
  formatted_from (rejecting_os out) doc (start (rejecting_os out) 0%nat)
    "abc" 0 "abc" 0%nat.
Proof. exists 0%nat, "". split; reflexivity. Defined.

Lemma C4_halts_within_budget_witness :
  writes_succeed (rejecting_os line_with_edit) doc /\
  always_rejects_with sample_loads (rejecting_os line_with_edit) doc
    (fun fixes => fixes <> [] /\ exists edits, Forall2 carries fixes edits) /\
  formatted_from (rejecting_os line_with_edit) doc
    (start (rejecting_os line_with_edit) 0%nat) "abc" 0 "abc" 0%nat /\
  exists evs w',
    check_and_fix no_str_positions sample_loads (rejecting_os line_with_edit)
      doc (start (rejecting_os line_with_edit) 0%nat)
    = (Ok (Some FailedMaxRounds),
       logged
         (start (rejecting_os line_with_edit) 0%nat)
         (evs ++ [EvPrint max_rounds_message])%list w') /\
    validations evs = 10%nat.
Proof.
  assert (Hv : always_rejects_with sample_loads (rejecting_os line_with_edit)
                 doc
                 (fun fixes =>
                    fixes <> [] /\ exists edits, Forall2 carries fixes edits)).
  { intros w. exists 1, line_with_edit, "", (S w), [fix_of (0, "X")].
    split; [reflexivity|]. split; [discriminate|]. split; [reflexivity|].
    split; [discriminate|]. exists [(0, "X")].
    repeat constructor. apply carries_fix_of. }
  split; [apply rejecting_os_writes|]. split; [exact Hv|].
  split; [apply rejecting_os_formats|].
  exact (proj2 (C4_halts_within_budget no_str_positions sample_loads
                  (rejecting_os line_with_edit) doc)
           (rejecting_os_writes _) Hv _ _ _ _ _ (rejecting_os_formats _)).
Defined.

(** C5, as the claim states it, fails.  The validator of
    [rejecting_os line_with_note] exits with status 1 in every state and
    prints one record whose only fix carries no edit, so that zero edits
    are extracted from its output.  Round 1 does not return at the
    "no fixes" site: it hands the unchanged buffer to the next round, and
    [check_and_fix] returns at "max rounds reached" after ten runs of the
    validator. *)
Lemma C5_counterexample :
  (forall w,
      spawn (rejecting_os line_with_note) (check_cmd doc) None w
      = (Ok (1, line_with_note, ""), S w)) /\
  parse_fixes sample_loads line_with_note
  = Ok [JObj [("note", JStr "n")]] /\
  collect_inserts no_str_positions [JObj [("note", JStr "n")]] = Ok [] /\
  round no_str_positions sample_loads (rejecting_os line_with_note) doc 1
    "abc" (start (rejecting_os line_with_note) 0%nat)
  = (Ok (inr "abc"),
     logged (start (rejecting_os line_with_note) 0%nat)
       [EvWrite doc "abc"; EvSpawn (check_cmd doc) None] 1%nat) /\
  check_and_fix no_str_positions sample_loads (rejecting_os line_with_note)
    doc (start (rejecting_os line_with_note) 0%nat)
  = (Ok (Some FailedMaxRounds),
     logged (start (rejecting_os line_with_note) 0%nat)
       ([EvRead doc; EvSpawn fmt_cmd (Some "abc")]
        ++ List.concat
             (repeat [EvWrite doc "abc"; EvSpawn (check_cmd doc) None] 10)
        ++ [EvPrint max_rounds_message])%list
       10%nat) /\
  validations
    (List.concat
       (repeat [EvWrite doc "abc"; EvSpawn (check_cmd doc) None] 10))
  = 10%nat.
Proof.
  split; [intros w; reflexivity|].
  repeat split; reflexivity.
Qed.

Lemma C5_no_fixes_ends_the_loop_witness :
  writes_succeed (rejecting_os line_without_fixes) doc /\
  always_rejects_with sample_loads (rejecting_os line_without_fixes) doc
    (fun fixes => fixes = []) /\
  formatted_from (rejecting_os line_without_fixes) doc
    (start (rejecting_os line_without_fixes) 0%nat) "abc" 0 "abc" 0%nat /\
  exists out w',
    check_and_fix no_str_positions sample_loads
      (rejecting_os line_without_fixes) doc
      (start (rejecting_os line_without_fixes) 0%nat)
    = (Ok (Some (FailedNoFixes out)),
       logged
         (start (rejecting_os line_without_fixes) 0%nat)
         [EvRead doc; EvSpawn fmt_cmd (piped (Some "abc"));
          EvWrite doc (adopt "abc" 0 "abc");
          EvSpawn (check_cmd doc) None; EvPrint out] w') /\
    exit_code (FailedNoFixes out) = 1.
Proof.
  assert (Hv : always_rejects_with sample_loads
                 (rejecting_os line_without_fixes) doc
                 (fun fixes => fixes = [])).
  { intros w. exists 1, line_without_fixes, "", (S w), [].
    split; [reflexivity|]. split; [discriminate|]. split; reflexivity. }
  split; [apply rejecting_os_writes|]. split; [exact Hv|].
  split; [apply rejecting_os_formats|].
  exact (proj2 (C5_no_fixes_ends_the_loop no_str_positions sample_loads
                  (rejecting_os line_without_fixes) doc)
           (rejecting_os_writes _) Hv _ _ _ _ _ (rejecting_os_formats _)).
Defined.

Lemma C8_formatter_output_adopted_witness :
  formatted_from (rejecting_os line_without_fixes) doc
    (start (rejecting_os line_without_fixes) 0%nat) "abc" 0 "abc" 0%nat /\
  exists buf,
    check_and_fix_fuel no_str_positions sample_loads
      (rejecting_os line_without_fixes) 10 doc
      (start (rejecting_os line_without_fixes) 0%nat)
    = fix_loop no_str_positions sample_loads
        (rejecting_os line_without_fixes) 10 doc 0 buf
        (logged
         (start (rejecting_os line_without_fixes) 0%nat)
           [EvRead doc; EvSpawn fmt_cmd (piped (Some "abc"))] 0%nat) /\
    (0 = 0 /\ "abc" <> "" -> buf = "abc") /\
    (0 <> 0 \/ "abc" = "" -> buf = "abc").
Proof.
  split; [apply rejecting_os_formats|].
  exact (C8_formatter_output_adopted no_str_positions sample_loads
           (rejecting_os line_without_fixes) doc 10 _ _ _ _ _
           (rejecting_os_formats _)).
Defined.

(** C9, as the claim states it, fails: the list below is not empty, its
    fix has no "edit" object with both fields (its "edit" is [null]), and
    [apply_fixes] does not skip it: it raises [TypeError]. *)
Lemma C9_counterexample :
  [JObj [("edit", JNull)]] <> [] /\
  ~ has_edit_fields (JObj [("edit", JNull)]) /\
  apply_fixes no_str_positions "abc" [JObj [("edit", JNull)]]
  = Raise TypeError.
Proof.
  split; [discriminate|]. split; [|reflexivity].
  intros (fm & em & Heq & Hed & _). injection Heq as <-.
  cbn in Hed. discriminate Hed.
Qed.

Lemma C9_inapplicable_fixes_use_up_the_budget_witness :
  writes_succeed (rejecting_os line_with_note) doc /\
  always_rejects_with sample_loads (rejecting_os line_with_note) doc
    (fun fixes => fixes <> [] /\ Forall inapplicable fixes) /\
  formatted_from (rejecting_os line_with_note) doc
    (start (rejecting_os line_with_note) 0%nat) "abc" 0 "abc" 0%nat /\
  exists evs w',
    check_and_fix no_str_positions sample_loads (rejecting_os line_with_note)
      doc (start (rejecting_os line_with_note) 0%nat)
    = (Ok (Some FailedMaxRounds),
       logged
         (start (rejecting_os line_with_note) 0%nat)
         ([EvRead doc; EvSpawn fmt_cmd (piped (Some "abc"))]
          ++ evs ++ [EvPrint max_rounds_message])%list w') /\
    validations evs = 10%nat /\
    Forall (writes_only (eq (adopt "abc" 0 "abc"))) evs.
Proof.
  assert (Hv : always_rejects_with sample_loads (rejecting_os line_with_note)
                 doc
                 (fun fixes => fixes <> [] /\ Forall inapplicable fixes)).
  { intros w.
    exists 1, line_with_note, "", (S w), [JObj [("note", JStr "n")]].
    split; [reflexivity|]. split; [discriminate|]. split; [reflexivity|].
    split; [discriminate|]. repeat constructor.
    exists [("note", JStr "n")]. split; [reflexivity|]. left. reflexivity. }
  split; [apply rejecting_os_writes|]. split; [exact Hv|].
  split; [apply rejecting_os_formats|].
  exact (proj2 (proj2 (C9_inapplicable_fixes_use_up_the_budget
                         no_str_positions sample_loads
                         (rejecting_os line_with_note) doc))
           (rejecting_os_writes _) Hv _ _ _ _ _ (rejecting_os_formats _)).
Defined.

(** * More about the edit applier *)

Lemma embeds_refl (s : string) : embeds s s.
Proof. induction s; constructor; assumption. Qed.

Lemma embeds_empty (t : string) : embeds "" t.
Proof. induction t; constructor; assumption. Qed.

Lemma embeds_app (a a' b b' : string) :
  embeds a a' -> embeds b b' -> embeds (a ++ b) (a' ++ b').
Proof.
  intros Ha Hb. induction Ha; cbn.
  - exact Hb.
  - now constructor.
  - now constructor.
Qed.

Lemma embeds_trans (a b c : string) : embeds a b -> embeds b c -> embeds a c.
Proof.
  intros Hab Hbc. revert a Hab.
  induction Hbc as [|x b c Hbc IH|x b c Hbc IH]; intros a Hab.
  - exact Hab.
  - inversion Hab; subst.
    + constructor. now apply IH.
    + apply embeds_add. now apply IH.
  - apply embeds_add. now apply IH.
Qed.

Lemma embeds_length (a b : string) :
  embeds a b -> (String.length a <= String.length b)%nat.
Proof. induction 1; cbn; lia. Qed.

Lemma embeds_insert_at (src : string) (pos : Z) (t : string) :
  embeds src (insert_at src pos t).
Proof.
  unfold insert_at. rewrite <- (slice_to_from src pos) at 1.
  apply embeds_app; [apply embeds_refl|].
  change (slice_from src pos) with ("" ++ slice_from src pos) at 1.
  apply embeds_app; [apply embeds_empty | apply embeds_refl].
Qed.

Lemma embeds_apply_edits (l : list edit) : forall src,
  embeds src (apply_edits src l).
Proof.
  induction l as [|e l IH]; intros src.
  - apply embeds_refl.
  - cbn [apply_edits fold_left].
    eapply embeds_trans; [apply embeds_insert_at|].
    apply (IH (insert_at src (fst e) (snd e))).
Qed.

(** X1: [apply_fixes] never deletes or reorders a character of the
    buffer: whatever the positions of the edits (valid, beyond the end or
    negative), the buffer it returns is the input with characters added. *)
Theorem apply_fixes_keeps_buffer iof (src : string) (fixes : list json)
  (edits : list edit) :
  Forall2 carries fixes edits ->
  exists out, apply_fixes iof src fixes = Ok out /\ embeds src out.
Proof.
  intros Hc. eexists. split.
  - exact (apply_fixes_carried iof src fixes edits Hc).
  - apply embeds_apply_edits.
Qed.

Lemma apply_fixes_keeps_buffer_witness :
  Forall2 carries [fix_of (7, "X"); fix_of (-1, "Y")] [(7, "X"); (-1, "Y")] /\
  exists out,
    apply_fixes no_str_positions "abc" [fix_of (7, "X"); fix_of (-1, "Y")]
    = Ok out /\ embeds "abc" out.
Proof.
  assert (Hc : Forall2 carries [fix_of (7, "X"); fix_of (-1, "Y")]
                 [(7, "X"); (-1, "Y")])
    by (repeat constructor; apply carries_fix_of).
  split; [exact Hc|].
  exact (apply_fixes_keeps_buffer no_str_positions "abc" _ _ Hc).
Defined.

Lemma insert_desc_same_key {A : Type} (p : Z) (x : Z * A) (l : list (Z * A)) :
  fst x = p -> Forall (fun y => fst y = p) l -> insert_desc x l = x :: l.
Proof.
  intros Hx Hl. destruct l as [|y l]; [reflexivity|].
  inversion Hl; subst. cbn [insert_desc].
  destruct (Z.ltb_spec (fst x) (fst y)); [lia | reflexivity].
Qed.

Lemma sort_desc_same_key {A : Type} (p : Z) (l : list (Z * A)) :
  Forall (fun y => fst y = p) l -> sort_desc l = l.
Proof.
  induction 1 as [|x l Hx Hl IH]; [reflexivity|].
  cbn [sort_desc fold_right]. fold (sort_desc l). rewrite IH.
  now apply (insert_desc_same_key p).
Qed.

Lemma texts_app (l1 l2 : list edit) :
  texts (l1 ++ l2)%list = texts l1 ++ texts l2.
Proof.
  induction l1 as [|e l1 IH]; [reflexivity|].
  cbn [app texts fold_right]. fold (texts (l1 ++ l2)%list) (texts l1).
  now rewrite IH, append_assoc.
Qed.

Lemma apply_edits_same_position (src : string) (p : Z) (l : list edit) :
  0 <= p <= len src ->
  Forall (fun e => fst e = p) l ->
  apply_edits src l
  = take (Z.to_nat p) src ++ texts (rev l) ++ drop (Z.to_nat p) src.
Proof.
  intros Hp. induction l as [|e l IH] using rev_ind; intros Hl.
  - cbn. now rewrite take_drop.
  - apply Forall_app in Hl as [Hl He]. inversion He; subst.
    rewrite apply_edits_snoc, (IH Hl), rev_app_distr. cbn [rev app].
    rewrite insert_at_after.
    + cbn [texts fold_right]. fold (texts (rev l)).
      now rewrite append_assoc.
    + unfold len. rewrite length_take by (unfold len in Hp; lia). lia.
Qed.

(** X2: edits that share one valid position are all inserted at that
    position, and their texts come out in the reverse of the order in
    which the fixes were listed (the stable sort keeps the order, and each
    splice goes in front of the previous one). *)
Theorem same_position_reverses_texts iof (src : string) (p : Z)
  (fixes : list json) (edits : list edit) :
  0 <= p <= len src ->
  Forall (fun e => fst e = p) edits ->
  Forall2 carries fixes edits ->
  apply_fixes iof src fixes
  = Ok (take (Z.to_nat p) src ++ texts (rev edits) ++ drop (Z.to_nat p) src).
Proof.
  intros Hp Hall Hc. rewrite (apply_fixes_carried iof src fixes edits Hc).
  rewrite (sort_desc_same_key p edits Hall).
  now rewrite (apply_edits_same_position src p edits Hp Hall).
Qed.

Lemma same_position_reverses_texts_witness :
  0 <= 1 <= len "abc" /\
  Forall (fun e : edit => fst e = 1) [(1, "X"); (1, "Y"); (1, "Z")] /\
  Forall2 carries [fix_of (1, "X"); fix_of (1, "Y"); fix_of (1, "Z")]
    [(1, "X"); (1, "Y"); (1, "Z")] /\
  apply_fixes no_str_positions "abc"
    [fix_of (1, "X"); fix_of (1, "Y"); fix_of (1, "Z")]
  = Ok "aZYXbc".
Proof.
  assert (Hp : 0 <= 1 <= len "abc") by (split; discriminate).
  assert (Hall : Forall (fun e : edit => fst e = 1)
                   [(1, "X"); (1, "Y"); (1, "Z")])
    by (repeat constructor).
  assert (Hc : Forall2 carries
                 [fix_of (1, "X"); fix_of (1, "Y"); fix_of (1, "Z")]
                 [(1, "X"); (1, "Y"); (1, "Z")])
    by (repeat constructor; apply carries_fix_of).
  repeat (split; [assumption|]).
  exact (same_position_reverses_texts no_str_positions "abc" 1 _ _
           Hp Hall Hc).
Defined.

Lemma collect_mixed iof (fixes : list json) (oes : list (option edit)) :
  Forall2 reads_as fixes oes ->
  collect_inserts iof fixes = Ok (map tagged (kept oes)).
Proof.
  induction 1 as [|f oe fixes oes Hf _ IH]; [reflexivity|].
  destruct oe as [e|]; cbn [reads_as] in Hf.
  - destruct Hf as (fm & em & -> & Hed & Hat & Hins).
    cbn [collect_inserts py_get rbind]. rewrite Hed.
    cbn [py_in rbind]. rewrite Hins. cbn [rbind]. rewrite Hat.
    cbn [py_getitem rbind]. rewrite Hat, Hins. cbn [py_int rbind].
    rewrite IH. reflexivity.
  - destruct Hf as (fm & -> & Hcase).
    cbn [collect_inserts py_get rbind kept flat_map app].
    fold (kept oes).
    destruct Hcase as [Hnone | (em & Hed & Hmiss)].
    + rewrite Hnone. cbn. exact IH.
    + rewrite Hed. cbn [rbind py_in].
      destruct Hmiss as [Hins | Hat].
      * rewrite Hins. cbn. exact IH.
      * rewrite Hat. destruct (lookup "insert" em); cbn; exact IH.
Qed.

(** X3: fixes without an applicable edit are skipped wherever they stand
    among the others: a list that mixes fixes carrying an edit with fixes
    whose "edit" is absent or incomplete gives the buffer that the
    carried edits alone give. *)
Theorem skipped_fixes_change_nothing iof (src : string) (fixes : list json)
  (oes : list (option edit)) :
  Forall2 reads_as fixes oes ->
  apply_fixes iof src fixes = apply_fixes iof src (map fix_of (kept oes)).
Proof.
  intros H. unfold apply_fixes. rewrite (collect_mixed iof fixes oes H).
  rewrite (collect_carried iof (map fix_of (kept oes)) (kept oes)).
  - reflexivity.
  - induction (kept oes); constructor; [apply carries_fix_of | assumption].
Qed.

Lemma skipped_fixes_change_nothing_witness :
  Forall2 reads_as
    [JObj [("note", JStr "n")]; fix_of (1, "X"); JObj [("edit", JObj [])]]
    [None; Some (1, "X"); None] /\
  apply_fixes no_str_positions "abc"
    [JObj [("note", JStr "n")]; fix_of (1, "X"); JObj [("edit", JObj [])]]
  = apply_fixes no_str_positions "abc" [fix_of (1, "X")].
Proof.
  assert (H : Forall2 reads_as
                [JObj [("note", JStr "n")]; fix_of (1, "X");
                 JObj [("edit", JObj [])]]
                [None; Some (1, "X"); None]).
  { constructor; [|constructor; [|constructor; [|constructor]]].
    - exists [("note", JStr "n")]. split; [reflexivity|]. now left.
    - apply carries_fix_of.
    - exists [("edit", JObj [])]. split; [reflexivity|]. right.
      exists []. split; [reflexivity|]. now left. }
  split; [exact H|].
  exact (skipped_fixes_change_nothing no_str_positions "abc" _ _ H).
Defined.

Lemma apply_inserts_not_text (l : list (Z * json)) : forall src,
  Exists (fun it => is_text (snd it) = false) l ->
  apply_inserts src l = Raise TypeError.
Proof.
  induction l as [|[p v] l IH]; intros src Hex.
  - inversion Hex.
  - cbn [apply_inserts]. destruct v; try reflexivity.
    cbn [splice rbind]. apply IH.
    inversion Hex as [? ? Hhd | ? ? Htl]; subst; [discriminate Hhd | exact Htl].
Qed.

(** X4: one insert that is not a string spoils the whole batch: when the
    first loop of [apply_fixes] has collected the inserts and one of them
    has a text that is not a str, [apply_fixes] raises [TypeError] and
    returns no buffer, whatever the other edits are. *)
Theorem non_text_insert_raises iof (src : string) (fixes : list json)
  (inserts : list (Z * json)) :
  collect_inserts iof fixes = Ok inserts ->
  Exists (fun it => is_text (snd it) = false) inserts ->
  apply_fixes iof src fixes = Raise TypeError.
Proof.
  intros Hcol Hex. unfold apply_fixes. rewrite Hcol. cbn [rbind].
  apply apply_inserts_not_text.
  apply Exists_exists in Hex as (it & Hin & Hit).
  apply Exists_exists. exists it. split; [|exact Hit].
  eapply Permutation_in; [apply Permutation_sym, sort_desc_perm | exact Hin].
Qed.

Lemma non_text_insert_raises_witness :
  collect_inserts no_str_positions
    [fix_of (0, "X");
     JObj [("edit", JObj [("insert", JInt 7); ("at", JInt 2)])]]
  = Ok [(0, JStr "X"); (2, JInt 7)] /\
  Exists (fun it : Z * json => is_text (snd it) = false)
    [(0, JStr "X"); (2, JInt 7)] /\
  apply_fixes no_str_positions "abc"
    [fix_of (0, "X");
     JObj [("edit", JObj [("insert", JInt 7); ("at", JInt 2)])]]
  = Raise TypeError.
Proof.
  assert (Hex : Exists (fun it : Z * json => is_text (snd it) = false)
                  [(0, JStr "X"); (2, JInt 7)])
    by (right; left; reflexivity).
  split; [reflexivity|]. split; [exact Hex|].
  exact (non_text_insert_raises no_str_positions "abc"
           [fix_of (0, "X");
            JObj [("edit", JObj [("insert", JInt 7); ("at", JInt 2)])]]
           [(0, JStr "X"); (2, JInt 7)] eq_refl Hex).
Defined.

(** * More about the diagnostic parser *)

Lemma split_from_line (line : string) : forall cur rest,
  no_break line = true ->
  split_from cur false (line ++ rest) = split_from (cur ++ line) false rest.
Proof.
  induction line as [|c line IH]; intros cur rest Hnb.
  - cbn. now rewrite append_nil_r.
  - cbn [no_break] in Hnb. apply andb_prop in Hnb as [Hc Hline].
    apply negb_true_iff in Hc. cbn [append split_from andb]. rewrite Hc.
    rewrite (IH _ rest Hline). f_equal.
    now rewrite append_assoc.
Qed.

Lemma split_from_newline (cur rest : string) :
  split_from cur false (String LF rest) = cur :: split_from "" false rest.
Proof. reflexivity. Qed.

Lemma splitlines_unlines (lines : list string) :
  Forall (fun line => no_break line = true) lines ->
  splitlines (unlines lines) = lines.
Proof.
  induction 1 as [|line lines Hline _ IH]; [reflexivity|].
  unfold splitlines in *. cbn [unlines fold_right]. fold (unlines lines).
  rewrite (split_from_line line "" _ Hline), split_from_newline.
  cbn [append]. now rewrite IH.
Qed.

Lemma parse_lines_app loads (l1 l2 : list string) : forall fixes,
  parse_lines loads (l1 ++ l2)%list fixes
  = (fixes' <- parse_lines loads l1 fixes ;; parse_lines loads l2 fixes').
Proof.
  induction l1 as [|line l1 IH]; intros fixes; [reflexivity|].
  cbn [app parse_lines]. destruct (loads line) as [d|e].
  - destruct (py_get d "fixes" (JList [])) as [v|e]; [|reflexivity].
    cbn [rbind]. destruct (py_iter v) as [items|e]; [|reflexivity].
    cbn [rbind]. apply IH.
  - destruct e; try reflexivity. apply IH.
Qed.

Lemma parse_lines_gives loads (lines : list string)
  (per_line : list (list json)) :
  Forall2 (line_gives loads) lines per_line ->
  forall fixes,
    parse_lines loads lines fixes = Ok (fixes ++ List.concat per_line)%list.
Proof.
  induction 1 as [|line items lines per_line Hline _ IH]; intros fixes.
  - cbn. now rewrite app_nil_r.
  - cbn [parse_lines List.concat].
    destruct Hline as [[Hl ->] | (members & Hl & [[Hno ->] | Hsome])];
      rewrite Hl; cbn [py_get].
    + now rewrite IH.
    + rewrite Hno. cbn [rbind py_iter]. rewrite IH.
      now rewrite app_nil_r.
    + rewrite Hsome. cbn [rbind py_iter]. rewrite IH.
      now rewrite app_assoc.
Qed.

(** X5: when the validator prints lines (each ended by a newline, none
    containing another line boundary), the fixes are collected line by
    line in the order of the output: a line that [json.loads] rejects or
    an object without "fixes" adds nothing, an object with a "fixes" list
    adds its elements, after those of the lines before. *)
Theorem parse_fixes_in_line_order loads (lines : list string)
  (per_line : list (list json)) :
  Forall (fun line => no_break line = true) lines ->
  Forall2 (line_gives loads) lines per_line ->
  parse_fixes loads (unlines lines) = Ok (List.concat per_line).
Proof.
  intros Hnb Hg. unfold parse_fixes. rewrite (splitlines_unlines lines Hnb).
  exact (parse_lines_gives loads lines per_line Hg []).
Qed.

Lemma parse_fixes_in_line_order_witness :
  Forall (fun line => no_break line = true)
    ["checking..."; line_with_edit; line_without_fixes; line_with_note] /\
  Forall2 (line_gives sample_loads)
    ["checking..."; line_with_edit; line_without_fixes; line_with_note]
    [[]; [fix_of (0, "X")]; []; [JObj [("note", JStr "n")]]] /\
  parse_fixes sample_loads
    (unlines ["checking..."; line_with_edit; line_without_fixes;
              line_with_note])
  = Ok [fix_of (0, "X"); JObj [("note", JStr "n")]].
Proof.
  assert (Hnb : Forall (fun line => no_break line = true)
                  ["checking..."; line_with_edit; line_without_fixes;
                   line_with_note])
    by (repeat constructor).
  assert (Hg : Forall2 (line_gives sample_loads)
                 ["checking..."; line_with_edit; line_without_fixes;
                  line_with_note]
                 [[]; [fix_of (0, "X")]; []; [JObj [("note", JStr "n")]]]).
  { constructor; [|constructor; [|constructor; [|constructor; [|constructor]]]].
    - left. split; reflexivity.
    - right. exists [("fixes", JList [fix_of (0, "X")])].
      split; [reflexivity|]. right. reflexivity.
    - right. exists [("message", JStr "bad")].
      split; [reflexivity|]. left. split; reflexivity.
    - right. exists [("fixes", JList [JObj [("note", JStr "n")]])].
      split; [reflexivity|]. right. reflexivity. }
  split; [exact Hnb|]. split; [exact Hg|].
  exact (parse_fixes_in_line_order sample_loads _ _ Hnb Hg).
Defined.

(** X6: the parse stops at the first line that raises: when the lines
    before a line parse to [fixes] and that line makes the parse raise
    [e], the whole output raises [e], whatever the lines after it are and
    however many fixes were found before; nothing is returned. *)
Theorem first_failing_line_decides loads (before after : list string)
  (line : string) (fixes : list json) (e : exn) :
  parse_lines loads before [] = Ok fixes ->
  parse_lines loads [line] fixes = Raise e ->
  parse_lines loads (before ++ line :: after)%list [] = Raise e.
Proof.
  intros Hb Hl. rewrite parse_lines_app, Hb. cbn [rbind].
  change (line :: after) with ([line] ++ after)%list.
  now rewrite parse_lines_app, Hl.
Qed.

Lemma first_failing_line_decides_witness :
  parse_lines sample_loads [line_with_edit] [] = Ok [fix_of (0, "X")] /\
  parse_lines sample_loads ["42"] [fix_of (0, "X")] = Raise AttributeError /\
  parse_lines sample_loads [line_with_edit; "42"; line_with_edit] []
  = Raise AttributeError.
Proof.
  split; [reflexivity|]. split; [reflexivity|].
  exact (first_failing_line_decides sample_loads [line_with_edit]
           [line_with_edit] "42" [fix_of (0, "X")] AttributeError
           eq_refl eq_refl).
Defined.

(** * More about the fix loop *)

Section LoopInvariants.
Variable iof : string -> result Z.
Variable loads : string -> result json.
Variable os : OS.
Variable path : string.

(** The three ways a round can go, by what the world answers. *)
Lemma round_inv rounds src (m : machine os) r m' :
  round iof loads os path rounds src m = (r, m') ->
  (exists e w1,
      write_file os path src (world m) = (Raise e, w1) /\
      r = Raise e /\ m' = logged m [EvWrite path src] w1) \/
  (exists w1 e w2,
      write_file os path src (world m) = (Ok tt, w1) /\
      spawn os (check_cmd path) None w1 = (Raise e, w2) /\
      r = Raise e /\
      m' = logged m [EvWrite path src; EvSpawn (check_cmd path) None] w2) \/
  (exists w1 rc out err w2,
      write_file os path src (world m) = (Ok tt, w1) /\
      spawn os (check_cmd path) None w1 = (Ok (rc, out, err), w2)).
Proof.
  destruct (write_file os path src (world m)) as [[[]|e] w1] eqn:Hw.
  2:{ unfold round, bind at 1. rewrite (write_eval os path src m _ _ Hw).
      intros [= <- <-]. left. now exists e, w1. }
  destruct (spawn os (check_cmd path) None w1) as [[[[rc out] err]|e] w2]
    eqn:Hs.
  2:{ unfold round, bind at 1. rewrite (write_eval os path src m _ _ Hw).
      unfold bind at 1.
      rewrite (run_eval os (check_cmd path) None
                 (logged m [EvWrite path src] w1) _ w2 Hs).
      rewrite logged_logged.
      intros [= <- <-]. right. left. now exists w1, e, w2. }
  intros _. right. right. now exists w1, rc, out, err, w2.
Qed.

Lemma fix_loop_run fuel : forall rounds src (m : machine os) r m',
  fix_loop iof loads os fuel path rounds src m = (r, m') ->
  exists evs,
    trace m' = (trace m ++ evs)%list /\ loop_run path rounds evs r.
Proof.
  induction fuel as [|fuel IH]; intros rounds src m r m'.
  - destruct (Z.ltb_spec rounds round_budget) as [Hlt|Hge].
    + cbn [fix_loop]. destruct (Z.ltb_spec rounds round_budget); [|lia].
      intros [= <- <-]. exists []. split; [now rewrite app_nil_r|].
      now constructor.
    + rewrite fix_loop_done by exact Hge. intros [= <- <-].
      eexists. split; [reflexivity|]. now constructor.
  - destruct (Z.ltb_spec rounds round_budget) as [Hlt|Hge].
    2:{ rewrite fix_loop_done by exact Hge. intros [= <- <-].
        eexists. split; [reflexivity|]. now constructor. }
    rewrite fix_loop_step by exact Hlt.
    destruct (round iof loads os path (rounds + 1) src m) as [r1 m1] eqn:Hr.
    pose proof Hr as Hinv. apply round_inv in Hinv.
    destruct Hinv as [(e & w1 & _ & -> & ->)
                     |[(w1 & e & w2 & _ & _ & -> & ->)
                      |(w1 & rc & out & err & w2 & Hw & Hs)]].
    + intros [= <- <-]. eexists. split; [reflexivity|]. now constructor.
    + intros [= <- <-]. eexists. split; [reflexivity|]. now constructor.
    + rewrite (round_eval iof loads os path (rounds + 1) src m
                 w1 w2 rc out err Hw Hs) in Hr.
      cbv zeta in Hr. destruct (rc =? 0).
      * rewrite logged_logged in Hr. injection Hr as <- <-.
        intros [= <- <-]. eexists. split; [reflexivity|]. now constructor.
      * destruct (parse_fixes loads out) as [[|f fs]|e].
        -- rewrite logged_logged in Hr. injection Hr as <- <-.
           intros [= <- <-]. eexists. split; [reflexivity|].
           now constructor.
        -- destruct (apply_fixes iof src (f :: fs)) as [src'|e];
             injection Hr as <- <-.
           ++ intros Hloop. apply IH in Hloop as (evs & Ht & Hrun).
              exists (EvWrite path src :: EvSpawn (check_cmd path) None
                        :: evs).
              split; [|now constructor].
              rewrite Ht. cbn [logged trace]. now rewrite <- app_assoc.
           ++ intros [= <- <-]. eexists. split; [reflexivity|].
              now constructor.
        -- injection Hr as <- <-. intros [= <- <-].
           eexists. split; [reflexivity|]. now constructor.
Qed.

Lemma check_and_fix_run fuel (m : machine os) r m' :
  check_and_fix_fuel iof loads os fuel path m = (r, m') ->
  (exists e, r = Raise e /\ trace m' = (trace m ++ [EvRead path])%list) \/
  (exists e stdin,
      r = Raise e /\
      trace m' = (trace m ++ [EvRead path; EvSpawn fmt_cmd stdin])%list) \/
  (exists stdin evs,
      trace m'
      = (trace m ++ EvRead path :: EvSpawn fmt_cmd stdin :: evs)%list /\
      loop_run path 0 evs r).
Proof.
  destruct (read_file os path (world m)) as [[src|e] w1] eqn:Hr.
  2:{ rewrite (check_and_fix_read_raises iof loads os path fuel m e w1 Hr).
      intros [= <- <-]. left. now exists e. }
  destruct (spawn os fmt_cmd (piped (Some src)) w1)
    as [[[[rc formatted] err]|e] w2] eqn:Hs.
  2:{ rewrite (check_and_fix_fmt_raises iof loads os path fuel m src w1 e w2
                 Hr Hs).
      intros [= <- <-]. right. left. now exists e, (piped (Some src)). }
  rewrite (check_and_fix_eval iof loads os path fuel m src w1 rc formatted
             err w2 Hr Hs).
  intros Hloop. apply fix_loop_run in Hloop as (evs & Ht & Hrun).
  right. right. exists (piped (Some src)), evs. split; [|exact Hrun].
  rewrite Ht. cbn [logged trace]. now rewrite <- app_assoc.
Qed.

Lemma loop_run_clean rounds evs k :
  loop_run path rounds evs (Ok (Some (Succeeded k))) ->
  rounds < k <= round_budget /\
  exists evs',
    evs = (evs' ++ [EvPrint (clean_message k)])%list /\
    validations evs' = Z.to_nat (k - rounds).
Proof.
  intros H. remember (Ok (Some (Succeeded k))) as r eqn:Hr.
  induction H as [| | | | rounds src Hlt | |rounds src evs r Hlt H IH];
    try discriminate Hr.
  - injection Hr as <-. split; [lia|].
    exists [EvWrite path src; EvSpawn (check_cmd path) None].
    split; [reflexivity|].
    replace (rounds + 1 - rounds) with 1 by lia. reflexivity.
  - destruct (IH Hr) as (Hk & evs' & -> & Hv). split; [lia|].
    exists (EvWrite path src :: EvSpawn (check_cmd path) None :: evs').
    split; [reflexivity|].
    change (validations
              (EvWrite path src :: EvSpawn (check_cmd path) None :: evs'))
      with (S (validations evs')).
    rewrite Hv. lia.
Qed.

Lemma loop_run_exhausted rounds evs :
  loop_run path rounds evs (Ok (Some FailedMaxRounds)) ->
  validations evs = rounds_left rounds /\
  exists evs', evs = (evs' ++ [EvPrint max_rounds_message])%list.
Proof.
  intros H. remember (Ok (Some FailedMaxRounds)) as r eqn:Hr.
  induction H as [rounds Hge| | | | | |rounds src evs r Hlt H IH];
    try discriminate Hr.
  - split; [|now exists []].
    change (validations [EvPrint max_rounds_message]) with 0%nat.
    unfold rounds_left. lia.
  - destruct (IH Hr) as (Hv & evs' & ->). split.
    + change (validations
                (EvWrite path src :: EvSpawn (check_cmd path) None
                   :: evs' ++ [EvPrint max_rounds_message]))
        with (S (validations (evs' ++ [EvPrint max_rounds_message]))).
      rewrite Hv. unfold rounds_left, round_budget in *. lia.
    + now exists (EvWrite path src :: EvSpawn (check_cmd path) None :: evs').
Qed.

(** X7: whatever the world does, when [check_and_fix] returns at the
    "clean" site with the round number [k], then [k] lies between 1 and
    10, the validator has been run exactly [k] times, and the last thing
    done is the print of "clean after k round(s)". *)
Theorem clean_after_counts_validator_runs (m : machine os) (k : Z) m' :
  check_and_fix iof loads os path m = (Ok (Some (Succeeded k)), m') ->
  1 <= k <= 10 /\
  exists evs,
    trace m' = (trace m ++ evs ++ [EvPrint (clean_message k)])%list /\
    validations evs = Z.to_nat k.
Proof.
  intros Hrun. apply check_and_fix_run in Hrun.
  destruct Hrun as [(e & He & _) | [(e & stdin & He & _)
                                   | (stdin & evs & Ht & Hloop)]];
    try discriminate He.
  apply loop_run_clean in Hloop as (Hk & evs' & -> & Hv).
  split; [unfold round_budget in Hk; lia|].
  exists (EvRead path :: EvSpawn fmt_cmd stdin :: evs').
  split; [exact Ht|].
  change (validations (EvRead path :: EvSpawn fmt_cmd stdin :: evs'))
    with (validations evs').
  rewrite Hv. f_equal. lia.
Qed.

(** X8: whatever the world does, [check_and_fix] returns at
    "max rounds reached" only after the validator has been run exactly 10
    times, and the message is the last thing printed. *)
Theorem max_rounds_only_after_ten_runs (m : machine os) m' :
  check_and_fix iof loads os path m = (Ok (Some FailedMaxRounds), m') ->
  exists evs,
    trace m' = (trace m ++ evs ++ [EvPrint max_rounds_message])%list /\
    validations evs = 10%nat.
Proof.
  intros Hrun. apply check_and_fix_run in Hrun.
  destruct Hrun as [(e & He & _) | [(e & stdin & He & _)
                                   | (stdin & evs & Ht & Hloop)]];
    try discriminate He.
  apply loop_run_exhausted in Hloop as (Hv & evs' & ->).
  exists (EvRead path :: EvSpawn fmt_cmd stdin :: evs').
  split; [exact Ht|].
  rewrite validations_app in Hv.
  change (validations (EvRead path :: EvSpawn fmt_cmd stdin :: evs'))
    with (validations evs').
  change (validations [EvPrint max_rounds_message]) with 0%nat in Hv.
  rewrite Nat.add_0_r in Hv. exact Hv.
Qed.

(** ** The order of the effects *)

Lemma written_first_nil : written_first path [].
Proof. intros [|ev pre] post H; discriminate H. Qed.

Lemma written_first_cons ev evs :
  ev <> EvSpawn (check_cmd path) None ->
  starts_ok path evs ->
  written_first path evs ->
  written_first path (ev :: evs).
Proof.
  intros Hev Hstart Hw pre post Heq.
  destruct pre as [|ev' pre]; cbn in Heq.
  - injection Heq as -> _. now destruct Hev.
  - injection Heq as <- Heq.
    destruct pre as [|ev2 pre2].
    + now destruct (Hstart post).
    + destruct (Hw _ _ Heq) as (pre' & content & ->).
      now exists (ev :: pre'), content.
Qed.

Lemma written_first_round content evs :
  starts_ok path evs ->
  written_first path evs ->
  written_first path
    (EvWrite path content :: EvSpawn (check_cmd path) None :: evs).
Proof.
  intros Hstart Hw pre post Heq.
  destruct pre as [|ev1 pre]; cbn in Heq; [discriminate Heq|].
  injection Heq as <- Heq.
  destruct pre as [|ev2 pre]; cbn in Heq.
  - now exists [], content.
  - injection Heq as <- Heq.
    destruct pre as [|ev3 pre3].
    + now destruct (Hstart post).
    + destruct (Hw _ _ Heq) as (pre' & content' & ->).
      now exists (EvWrite path content :: EvSpawn (check_cmd path) None
                    :: pre'), content'.
Qed.

Lemma loop_run_order rounds evs r :
  loop_run path rounds evs r ->
  starts_ok path evs /\ written_first path evs /\ Forall (loop_event path) evs.
Proof.
  assert (Hw : forall c, loop_event path (EvWrite path c))
    by (intros c; left; now exists c).
  assert (Hs : loop_event path (EvSpawn (check_cmd path) None))
    by (right; now left).
  assert (Hp : forall t, loop_event path (EvPrint t))
    by (intros t; right; right; now exists t).
  assert (Hnil : starts_ok path []) by (intros post H; discriminate H).
  assert (Hpr : forall t, starts_ok path [EvPrint t])
    by (intros t post H; discriminate H).
  assert (Hwp : forall t, written_first path [EvPrint t]).
  { intros t. apply written_first_cons;
      [discriminate | exact Hnil | exact written_first_nil]. }
  induction 1 as [rounds Hge|rounds Hlt|rounds src e Hlt|rounds src e Hlt
                 |rounds src Hlt|rounds src out Hlt
                 |rounds src evs r Hlt H (IHs & IHw & IHf)].
  - split; [apply Hpr|]. split; [apply Hwp|].
    constructor; [apply Hp | constructor].
  - split; [exact Hnil|]. split; [exact written_first_nil|]. constructor.
  - split; [intros post H; discriminate H|].
    split; [|constructor; [apply Hw | constructor]].
    apply written_first_cons;
      [discriminate | exact Hnil | exact written_first_nil].
  - split; [intros post H; discriminate H|].
    split; [|constructor; [apply Hw|]; constructor; [exact Hs | constructor]].
    apply written_first_round; [exact Hnil | exact written_first_nil].
  - split; [intros post H; discriminate H|].
    split; [|constructor; [apply Hw|]; constructor; [exact Hs|];
             constructor; [apply Hp | constructor]].
    apply written_first_round; [apply Hpr | apply Hwp].
  - split; [intros post H; discriminate H|].
    split; [|constructor; [apply Hw|]; constructor; [exact Hs|];
             constructor; [apply Hp | constructor]].
    apply written_first_round; [apply Hpr | apply Hwp].
  - split; [intros post H'; discriminate H'|].
    split; [now apply written_first_round|].
    constructor; [apply Hw|]. constructor; [exact Hs | exact IHf].
Qed.

(** X9: the validator never checks a stale file: whatever the world
    does, in the events of a run of [check_and_fix] every run of the
    validator comes directly after a write of the file. *)
Theorem validator_sees_fresh_file fuel (m : machine os) :
  exists evs,
    trace (snd (check_and_fix_fuel iof loads os fuel path m))
    = (trace m ++ evs)%list /\
    written_first path evs.
Proof.
  destruct (check_and_fix_fuel iof loads os fuel path m) as [r m'] eqn:Hrun.
  cbn [snd]. apply check_and_fix_run in Hrun.
  destruct Hrun as [(e & _ & Ht) | [(e & stdin & _ & Ht)
                                   | (stdin & evs & Ht & Hloop)]];
    eexists; (split; [exact Ht|]).
  - apply written_first_cons;
      [discriminate | intros post H; discriminate H
       | exact written_first_nil].
  - apply written_first_cons; [discriminate | intros post H; discriminate H|].
    apply written_first_cons;
      [discriminate | intros post H; discriminate H
       | exact written_first_nil].
  - apply loop_run_order in Hloop as (Hs & Hw & _).
    apply written_first_cons; [discriminate | intros post H; discriminate H|].
    apply written_first_cons; [discriminate | exact Hs | exact Hw].
Qed.

(** X10: whatever the world does, [check_and_fix] reads the file once,
    first of all, starts the formatter at most once, right after the
    read, and from then on only writes the file, runs the validator and
    prints: the file is never read again and the formatter never run
    again. *)
Theorem reads_and_formats_once fuel (m : machine os) :
  trace (snd (check_and_fix_fuel iof loads os fuel path m))
  = (trace m ++ [EvRead path])%list \/
  exists stdin evs,
    trace (snd (check_and_fix_fuel iof loads os fuel path m))
    = (trace m ++ EvRead path :: EvSpawn fmt_cmd stdin :: evs)%list /\
    Forall (loop_event path) evs.
Proof.
  destruct (check_and_fix_fuel iof loads os fuel path m) as [r m'] eqn:Hrun.
  cbn [snd]. apply check_and_fix_run in Hrun.
  destruct Hrun as [(e & _ & Ht) | [(e & stdin & _ & Ht)
                                   | (stdin & evs & Ht & Hloop)]].
  - now left.
  - right. exists stdin, []. split; [exact Ht | constructor].
  - right. exists stdin, evs. split; [exact Ht|].
    now apply loop_run_order in Hloop.
Qed.

(** ** The last round, and validators that end up accepting *)

(** X11: in the last round of the budget the fixes are applied in memory
    only: when the validator rejects in round 10 and its fixes apply,
    the loop prints "max rounds reached" and returns without writing the
    new buffer, so the file keeps the buffer the validator has just
    rejected. *)
Theorem last_round_fixes_are_not_written fuel rounds src (m : machine os)
  w1 w2 rc out err fixes src' :
  rounds + 1 = round_budget ->
  write_file os path src (world m) = (Ok tt, w1) ->
  spawn os (check_cmd path) None w1 = (Ok (rc, out, err), w2) ->
  rc <> 0 ->
  parse_fixes loads out = Ok fixes ->
  fixes <> [] ->
  apply_fixes iof src fixes = Ok src' ->
  fix_loop iof loads os (S fuel) path rounds src m
  = (Ok (Some FailedMaxRounds),
     logged m [EvWrite path src; EvSpawn (check_cmd path) None;
               EvPrint max_rounds_message] w2).
Proof.
  intros Hlast Hw Hs Hrc Hp Hne Ha.
  rewrite fix_loop_step by lia.
  rewrite (round_eval iof loads os path (rounds + 1) src m w1 w2 rc out err
             Hw Hs).
  cbv zeta. destruct (Z.eqb_spec rc 0) as [|_]; [contradiction|].
  rewrite Hp. destruct fixes as [|f fs]; [contradiction|]. rewrite Ha.
  rewrite fix_loop_done by lia. now rewrite logged_logged.
Qed.

Lemma settles_loop n : forall fuel rounds src (m : machine os),
  settles iof loads os path n src (world m) ->
  rounds + Z.of_nat n < round_budget ->
  (n < fuel)%nat ->
  exists evs w',
    fix_loop iof loads os fuel path rounds src m
    = (Ok (Some (Succeeded (rounds + Z.of_nat n + 1))),
       logged m (evs ++ [EvPrint (clean_message (rounds + Z.of_nat n + 1))])
         w') /\
    validations evs = S n.
Proof.
  induction n as [|n IH]; intros fuel rounds src m Hset Hlt Hfuel;
    (destruct fuel as [|fuel]; [lia|]).
  - inversion Hset as [? ? w1 out err w2 Hw Hs|]; subst.
    rewrite (accepted_round iof loads os path fuel rounds src m w1 w2 out err)
      by (assumption || lia).
    exists [EvWrite path src; EvSpawn (check_cmd path) None], w2.
    split; [|reflexivity].
    replace (rounds + Z.of_nat 0 + 1) with (rounds + 1) by lia.
    reflexivity.
  - inversion Hset
      as [|? ? ? w1 rc out err w2 fixes src' Hw Hs Hrc Hp Hne Ha Hnext];
      subst.
    rewrite fix_loop_step by lia.
    rewrite (round_eval iof loads os path (rounds + 1) src m w1 w2 rc out err
               Hw Hs).
    cbv zeta. destruct (Z.eqb_spec rc 0) as [|_]; [contradiction|].
    rewrite Hp. destruct fixes as [|f fs]; [contradiction|]. rewrite Ha.
    destruct (IH fuel (rounds + 1) src'
                (logged m [EvWrite path src; EvSpawn (check_cmd path) None]
                   w2) Hnext)
      as (evs & w' & -> & Hv); [lia | lia |].
    exists ([EvWrite path src; EvSpawn (check_cmd path) None] ++ evs)%list, w'.
    split.
    + rewrite logged_logged, app_assoc.
      replace (rounds + 1 + Z.of_nat n + 1)
        with (rounds + Z.of_nat (S n) + 1) by lia.
      reflexivity.
    + rewrite validations_app, Hv. reflexivity.
Qed.

(** X12: when, from the buffer left by the formatting step, the validator
    rejects [n] times with fixes that apply and then accepts, and [n] is
    at most 9, [check_and_fix] returns at the "clean" site with round
    number [n + 1], after [n + 1] runs of the validator. *)
Theorem accepted_within_budget (n : nat) (m : machine os) src rc formatted w2 :
  formatted_from os path m src rc formatted w2 ->
  settles iof loads os path n (adopt src rc formatted) w2 ->
  (n < 10)%nat ->
  exists evs w',
    check_and_fix iof loads os path m
    = (Ok (Some (Succeeded (Z.of_nat n + 1))),
       logged m (evs ++ [EvPrint (clean_message (Z.of_nat n + 1))])%list w') /\
    validations evs = S n.
Proof.
  intros (w1 & err & Hr & Hs) Hset Hn. unfold check_and_fix.
  rewrite (check_and_fix_eval iof loads os path _ m src w1 rc formatted err w2
             Hr Hs).
  destruct (settles_loop n (Z.to_nat round_budget) 0 (adopt src rc formatted)
              (logged m [EvRead path; EvSpawn fmt_cmd (piped (Some src))] w2)
              Hset)
    as (evs & w' & Heq & Hv).
  - unfold round_budget. lia.
  - unfold round_budget. lia.
  - exists ([EvRead path; EvSpawn fmt_cmd (piped (Some src))] ++ evs)%list, w'.
    split.
    + rewrite Heq, logged_logged, app_assoc. reflexivity.
    + rewrite validations_app, Hv. reflexivity.
Qed.

Lemma fix_loop_accepted fuel : forall rounds src (m : machine os) k m',
  fix_loop iof loads os fuel path rounds src m
  = (Ok (Some (Succeeded k)), m') ->
  exists content w0 w1 out err,
    write_file os path content w0 = (Ok tt, w1) /\
    spawn os (check_cmd path) None w1 = (Ok (0, out, err), world m').
Proof.
  induction fuel as [|fuel IH]; intros rounds src m k m'.
  - destruct (Z.ltb_spec rounds round_budget) as [Hlt|Hge].
    + cbn [fix_loop]. destruct (Z.ltb_spec rounds round_budget); [|lia].
      discriminate.
    + rewrite fix_loop_done by exact Hge. discriminate.
  - destruct (Z.ltb_spec rounds round_budget) as [Hlt|Hge].
    2:{ rewrite fix_loop_done by exact Hge. discriminate. }
    rewrite fix_loop_step by exact Hlt.
    destruct (round iof loads os path (rounds + 1) src m) as [r1 m1] eqn:Hr.
    pose proof Hr as Hinv. apply round_inv in Hinv.
    destruct Hinv as [(e & w1 & _ & -> & ->)
                     |[(w1 & e & w2 & _ & _ & -> & ->)
                      |(w1 & rc & out & err & w2 & Hw & Hs)]];
      try discriminate.
    rewrite (round_eval iof loads os path (rounds + 1) src m
               w1 w2 rc out err Hw Hs) in Hr.
    cbv zeta in Hr. destruct (Z.eqb_spec rc 0) as [->|Hrc].
    + injection Hr as <- <-. intros [= <- <-].
      now exists src, (world m), w1, out, err.
    + destruct (parse_fixes loads out) as [[|f fs]|e].
      * injection Hr as <- <-. discriminate.
      * destruct (apply_fixes iof src (f :: fs)) as [src'|e];
          injection Hr as <- <-; [|discriminate].
        apply IH.
      * injection Hr as <- <-. discriminate.
Qed.

(** X13: the exit status of [main] called with a file name is 0 or 1
    (unless an exception escapes), and it is 0 only when the last thing
    that happened to the world is a run of the validator that exited
    with status 0 on the file the tool had just written. *)
Theorem exit_zero_means_accepted (prog : string) (m : machine os) r m' :
  main iof loads os [prog; path] m = (r, m') ->
  (exists e, r = Raise e) \/
  r = Ok (Some 1) \/
  (r = Ok (Some 0) /\
   exists content w0 w1 out err,
     write_file os path content w0 = (Ok tt, w1) /\
     spawn os (check_cmd path) None w1 = (Ok (0, out, err), world m')).
Proof.
  cbn [main]. unfold bind.
  pose proof (check_and_fix_enough_fuel iof loads os path
                (Z.to_nat round_budget) m (Nat.le_refl _)) as [_ Hsome].
  destruct (check_and_fix iof loads os path m) as [[[t|]|e] m1] eqn:Hrun.
  - cbn [fst] in Hsome. intros [= <- <-].
    destruct t as [k|out|]; cbn [option_map exit_code].
    + right. right. split; [reflexivity|].
      unfold check_and_fix in Hrun.
      destruct (read_file os path (world m)) as [[src|e] w1] eqn:Hr.
      2:{ rewrite (check_and_fix_read_raises iof loads os path _ m e w1 Hr)
            in Hrun. discriminate Hrun. }
      destruct (spawn os fmt_cmd (piped (Some src)) w1)
        as [[[[rc formatted] err]|e] w2] eqn:Hs.
      2:{ rewrite (check_and_fix_fmt_raises iof loads os path _ m src w1 e w2
                     Hr Hs) in Hrun. discriminate Hrun. }
      rewrite (check_and_fix_eval iof loads os path _ m src w1 rc formatted
                 err w2 Hr Hs) in Hrun.
      exact (fix_loop_accepted _ _ _ _ _ _ Hrun).
    + right. now left.
    + right. now left.
  - now destruct Hsome.
  - intros [= <- <-]. left. now exists e.
Qed.

(** X14: called with any number of arguments other than one file name,
    [main] prints the usage line and returns 2; it reads and writes no
    file and starts no program. *)
Theorem wrong_argument_count_is_usage_error (argv : list string)
  (m : machine os) :
  List.length argv <> 2%nat ->
  main iof loads os argv m
  = (Ok (Some 2), logged m [EvPrint usage_message] (world m)).
Proof.
  intros Hlen. destruct argv as [|a [|b [|c argv]]]; try reflexivity.
  now destruct Hlen.
Qed.

(** X15: a file that cannot be read, or a formatter that cannot be
    started, ends [check_and_fix] at once with that exception: the file
    is not written and the validator is not run. *)
Theorem read_or_format_failure_is_fatal (m : machine os) (e : exn) :
  (forall w1,
      read_file os path (world m) = (Raise e, w1) ->
      check_and_fix iof loads os path m
      = (Raise e, logged m [EvRead path] w1)) /\
  (forall src w1 w2,
      read_file os path (world m) = (Ok src, w1) ->
      spawn os fmt_cmd (piped (Some src)) w1 = (Raise e, w2) ->
      check_and_fix iof loads os path m
      = (Raise e,
         logged m [EvRead path; EvSpawn fmt_cmd (piped (Some src))] w2)).
Proof.
  split.
  - intros w1 Hr.
    exact (check_and_fix_read_raises iof loads os path _ m e w1 Hr).
  - intros src w1 w2 Hr Hs.
    exact (check_and_fix_fmt_raises iof loads os path _ m src w1 e w2 Hr Hs).
Qed.

(** X16: the formatter gets the buffer on its standard input only when
    the buffer is not empty: for an empty file it is started without a
    pipe (its input is the one of the tool itself). *)
Theorem empty_file_is_not_piped fuel (m : machine os) src w1 :
  read_file os path (world m) = (Ok src, w1) ->
  exists rest,
    trace (snd (check_and_fix_fuel iof loads os fuel path m))
    = (trace m ++ EvRead path
         :: EvSpawn fmt_cmd (if String.eqb src "" then None else Some src)
         :: rest)%list.
Proof.
  intros Hr.
  assert (Hpipe : piped (Some src)
                  = if String.eqb src "" then None else Some src)
    by (destruct src; reflexivity).
  rewrite <- Hpipe.
  destruct (spawn os fmt_cmd (piped (Some src)) w1)
    as [[[[rc formatted] err]|e] w2] eqn:Hs.
  - rewrite (check_and_fix_eval iof loads os path fuel m src w1 rc formatted
               err w2 Hr Hs).
    destruct (fix_loop iof loads os fuel path 0 (adopt src rc formatted)
                (logged m [EvRead path; EvSpawn fmt_cmd (piped (Some src))]
                   w2)) as [r m'] eqn:Hloop.
    apply fix_loop_trace in Hloop as (evs & Ht & _).
    exists evs. cbn [snd]. rewrite Ht. cbn [logged trace].
    now rewrite <- app_assoc.
  - rewrite (check_and_fix_fmt_raises iof loads os path fuel m src w1 e w2
               Hr Hs).
    now exists [].
Qed.

End LoopInvariants.

(** * [strip_fences] *)

Lemma prefix_empty (s : string) : prefix "" s = true.
Proof. destruct s; reflexivity. Qed.

Lemma prefix_app (a s t : string) :
  prefix a s = true -> prefix a (s ++ t) = true.
Proof.
  revert s. induction a as [|x a IH]; intros s H; [apply prefix_empty|].
  destruct s as [|y s]; [discriminate H|].
  cbn in *. destruct (ascii_dec x y); [|discriminate H]. now apply IH.
Qed.

Lemma prefix_drop (a s : string) :
  prefix a s = true -> s = a ++ drop (String.length a) s.
Proof.
  revert s. induction a as [|x a IH]; intros s H; [reflexivity|].
  destruct s as [|y s]; [discriminate H|].
  cbn in *. destruct (ascii_dec x y) as [->|]; [|discriminate H].
  f_equal. now apply IH.
Qed.

Lemma prefix_self_app (a t : string) : prefix a (a ++ t) = true.
Proof.
  induction a as [|x a IH]; [apply prefix_empty|].
  cbn. destruct (ascii_dec x x); [exact IH | contradiction].
Qed.

Lemma contains_tail (sub : string) (c : ascii) (s : string) :
  contains sub s = true -> contains sub (String c s) = true.
Proof. intros H. cbn [contains]. rewrite H. apply orb_true_r. Qed.

Lemma contains_prefix (sub s : string) :
  prefix sub s = true -> contains sub s = true.
Proof. intros H. destruct s; cbn [contains]; now rewrite H. Qed.

Lemma contains_after (sub pre t : string) :
  contains sub (pre ++ sub ++ t) = true.
Proof.
  induction pre as [|c pre IH].
  - cbn [append]. apply contains_prefix, prefix_self_app.
  - cbn [append]. now apply contains_tail.
Qed.

Lemma contains_app_l (sub a b : string) :
  contains sub a = true -> contains sub (a ++ b) = true.
Proof.
  induction a as [|x a IH]; cbn [contains append]; intros H.
  - rewrite orb_false_r in H. apply (prefix_app sub "" b) in H.
    cbn [append] in H. destruct b; cbn [contains]; rewrite H; reflexivity.
  - apply orb_true_iff in H as [H|H].
    + apply (prefix_app sub _ b) in H. cbn [append] in H. now rewrite H.
    + rewrite (IH H). apply orb_true_r.
Qed.

Lemma contains_drop (sub : string) (n : nat) : forall s,
  contains sub (drop n s) = true -> contains sub s = true.
Proof.
  induction n as [|n IH]; intros [|c s] H; cbn [drop] in H; try exact H.
  apply contains_tail. now apply IH.
Qed.

Lemma lstrip_drop (s : string) : exists n, lstrip s = drop n s.
Proof.
  induction s as [|c s [n IH]].
  - now exists 0%nat.
  - cbn [lstrip]. destruct (is_space c).
    + now exists (S n).
    + now exists 0%nat.
Qed.

Lemma rstrip_prefix (s : string) : exists w, s = rstrip s ++ w.
Proof.
  induction s as [|c s [w IH]].
  - now exists "".
  - cbn [rstrip]. destruct (rstrip s) as [|d r] eqn:Hr.
    + destruct (is_space c).
      * now exists (String c s).
      * exists s. reflexivity.
    + exists w. cbn [append]. f_equal. exact IH.
Qed.

Lemma contains_strip (sub s : string) :
  contains sub s = false -> contains sub (strip s) = false.
Proof.
  intros H. unfold strip.
  destruct (contains sub (rstrip (lstrip s))) eqn:E; [|reflexivity].
  destruct (rstrip_prefix (lstrip s)) as [w Hw].
  apply (contains_app_l sub _ w) in E. rewrite <- Hw in E.
  destruct (lstrip_drop s) as [n Hn]. rewrite Hn in E.
  apply contains_drop in E. congruence.
Qed.

Lemma contains_without_tag (sub code : string) :
  contains sub code = false -> contains sub (without_tag code) = false.
Proof.
  intros H. unfold without_tag. destruct (prefix "braid" code); [|exact H].
  destruct (contains sub (drop (String.length "braid") code)) eqn:E;
    [|reflexivity].
  apply contains_drop in E. congruence.
Qed.

Lemma cut_at_prefix (sep s : string) :
  prefix sep s = true -> cut sep s = Some ("", drop (String.length sep) s).
Proof. intros H. destruct s; cbn [cut]; now rewrite H. Qed.

Lemma cut_none (sep s : string) :
  cut sep s = None -> contains sep s = false.
Proof.
  induction s as [|c s IH]; cbn [cut contains].
  - destruct (prefix sep ""); [discriminate | reflexivity].
  - destruct (prefix sep (String c s)); [discriminate|].
    destruct (cut sep s) as [[a b]|]; [discriminate|].
    intros _. now rewrite IH.
Qed.

Lemma cut_some (sep s a b : string) :
  sep <> "" ->
  cut sep s = Some (a, b) ->
  s = a ++ sep ++ b /\ contains sep a = false.
Proof.
  intros Hsep. revert a b.
  induction s as [|c s IH]; intros a b; cbn [cut].
  - destruct sep; [contradiction | discriminate].
  - destruct (prefix sep (String c s)) eqn:Hp.
    + intros [= <- <-]. split.
      * cbn [append]. now apply prefix_drop.
      * destruct sep; [contradiction | reflexivity].
    + destruct (cut sep s) as [[a' b']|]; [|discriminate].
      intros [= <- <-]. destruct (IH a' b' eq_refl) as [Hs Ha].
      split; [cbn [append]; now f_equal|].
      cbn [contains]. rewrite Ha, orb_false_r.
      destruct (prefix sep (String c a')) eqn:Hp'; [|reflexivity].
      apply (prefix_app sep _ (sep ++ b')) in Hp'.
      cbn [append] in Hp'. rewrite <- Hs in Hp'. congruence.
Qed.

Lemma contains_cut (sep s : string) :
  contains sep s = true -> exists a b, cut sep s = Some (a, b).
Proof.
  intros H. destruct (cut sep s) as [[a b]|] eqn:E.
  - now exists a, b.
  - apply cut_none in E. congruence.
Qed.

(** The part of the text that [strip_fences] keeps, when there is a
    fence: what follows the first fence, up to the next one if any. *)
Lemma split_second (s a b : string) :
  cut fence s = Some (a, b) ->
  exists code rest,
    split fence s = a :: code :: rest /\ contains fence code = false /\
    (cut fence b = None /\ code = b \/
     exists after, cut fence b = Some (code, after)).
Proof.
  intros Hcut. unfold split.
  destruct (cut_some fence s a b) as [Hs _]; [discriminate | exact Hcut |].
  assert (Hlen : String.length s
                 = S (S (String.length a + 1 + String.length b))).
  { rewrite Hs, !length_append. cbn. lia. }
  rewrite Hlen. cbn [split_fuel]. rewrite Hcut.
  destruct (cut fence b) as [[code after]|] eqn:Hb.
  - exists code. eexists. split; [reflexivity|]. split.
    + now destruct (cut_some fence b code after) as [_ H];
        [discriminate | exact Hb |].
    + right. now exists after.
  - exists b, []. split; [reflexivity|]. split; [now apply cut_none|].
    now left.
Qed.

(** X17: the text returned by [strip_fences] never contains a fence. *)
Theorem strip_fences_leaves_no_fence (s : string) :
  contains fence (strip_fences s) = false.
Proof.
  unfold strip_fences. destruct (contains fence s) eqn:Hc; cbn [negb].
  - destruct (contains_cut fence s Hc) as (a & b & Hcut).
    destruct (split_second s a b Hcut) as (code & rest & -> & Hcode & _).
    now apply contains_strip, contains_without_tag.
  - exact Hc.
Qed.

(** X18: [strip_fences] is idempotent: applied to its own result it
    changes nothing. *)
Theorem strip_fences_idempotent (s : string) :
  strip_fences (strip_fences s) = strip_fences s.
Proof.
  unfold strip_fences at 1.
  now rewrite (strip_fences_leaves_no_fence s).
Qed.

Lemma no_backtick_no_fence (s : string) :
  no_backtick s = true -> contains fence s = false.
Proof.
  induction s as [|c s IH]; [reflexivity|].
  cbn [no_backtick]. intros H. apply andb_prop in H as [Hc Hs].
  cbn [contains]. rewrite (IH Hs), orb_false_r.
  unfold fence. cbn [prefix].
  destruct (ascii_dec "`" c) as [<-|]; [discriminate Hc | reflexivity].
Qed.

Lemma cut_after_plain (pre rest : string) :
  no_backtick pre = true ->
  cut fence (pre ++ fence ++ rest) = Some (pre, rest).
Proof.
  induction pre as [|c pre IH]; intros H.
  - cbn [append]. now rewrite cut_at_prefix by apply prefix_self_app.
  - cbn [no_backtick] in H. apply andb_prop in H as [Hc Hpre].
    cbn [append cut]. rewrite (IH Hpre).
    unfold fence at 1. cbn [prefix].
    destruct (ascii_dec "`" c) as [<-|]; [discriminate Hc | reflexivity].
Qed.

(** X19: when the text before the first fence and the text between the
    first fence and the next one contain no backtick, [strip_fences]
    returns that fenced text, without the language tag "braid" when it
    starts with it and without the white space around; what precedes the
    first fence and what follows the second one are dropped.  A fence
    that is never closed gives the text after it in the same way. *)
Theorem strip_fences_first_block (pre body post : string) :
  no_backtick pre = true ->
  no_backtick body = true ->
  strip_fences (pre ++ fence ++ body ++ fence ++ post)
  = strip (without_tag body) /\
  strip_fences (pre ++ fence ++ body) = strip (without_tag body).
Proof.
  intros Hpre Hbody. split.
  - pose proof (cut_after_plain pre (body ++ fence ++ post) Hpre) as Hcut.
    unfold strip_fences. rewrite contains_after. cbn [negb].
    destruct (split_second _ _ _ Hcut) as (code & rest & -> & _ & Hcase).
    destruct Hcase as [[Hnone _] | (after & Hsome)].
    + rewrite (cut_after_plain body post Hbody) in Hnone. discriminate.
    + rewrite (cut_after_plain body post Hbody) in Hsome.
      now injection Hsome as <- _.
  - pose proof (cut_after_plain pre body Hpre) as Hcut.
    unfold strip_fences. rewrite contains_after. cbn [negb].
    destruct (split_second _ _ _ Hcut) as (code & rest & -> & _ & Hcase).
    destruct Hcase as [[_ ->] | (after & Hsome)]; [reflexivity|].
    pose proof (no_backtick_no_fence body Hbody) as Hnf.
    assert (contains fence body = true); [|congruence].
    destruct (cut_some fence body code after ltac:(discriminate) Hsome)
      as [Hb _].
    rewrite Hb. apply contains_after.
Qed.

Lemma length_lstrip (s : string) :
  (String.length (lstrip s) <= String.length s)%nat.
Proof.
  induction s as [|c s IH]; cbn [lstrip]; [lia|].
  destruct (is_space c); cbn [String.length]; lia.
Qed.

Lemma lstrip_idempotent (s : string) : lstrip (lstrip s) = lstrip s.
Proof.
  induction s as [|c s IH]; [reflexivity|].
  cbn [lstrip]. destruct (is_space c) eqn:E; [exact IH|].
  cbn [lstrip]. now rewrite E.
Qed.

Lemma lstrip_rstrip (s : string) :
  lstrip s = s -> lstrip (rstrip s) = rstrip s.
Proof.
  destruct s as [|c s]; [reflexivity|]. cbn [lstrip]. intros H.
  destruct (is_space c) eqn:E.
  - pose proof (length_lstrip s) as Hl. rewrite H in Hl.
    cbn [String.length] in Hl. lia.
  - cbn [rstrip]. destruct (rstrip s); rewrite ?E; cbn [lstrip];
      now rewrite E.
Qed.

Lemma rstrip_idempotent (s : string) : rstrip (rstrip s) = rstrip s.
Proof.
  induction s as [|c s IH]; [reflexivity|].
  cbn [rstrip]. destruct (rstrip s) as [|d r] eqn:Hr.
  - destruct (is_space c) eqn:E; [reflexivity|].
    cbn [rstrip]. now rewrite E.
  - cbn [rstrip]. cbn [rstrip] in IH. rewrite IH. reflexivity.
Qed.

Lemma strip_idempotent (s : string) : strip (strip s) = strip s.
Proof.
  unfold strip.
  rewrite (lstrip_rstrip (lstrip s) (lstrip_idempotent s)).
  apply rstrip_idempotent.
Qed.

(** X20: when the text contains a fence, what [strip_fences] returns has
    no white space at its beginning or at its end: stripping it again
    changes nothing. *)
Theorem fenced_code_is_stripped (s : string) :
  contains fence s = true ->
  strip (strip_fences s) = strip_fences s.
Proof.
  intros Hc. unfold strip_fences. rewrite Hc. cbn [negb].
  destruct (contains_cut fence s Hc) as (a & b & Hcut).
  destruct (split_second s a b Hcut) as (code & rest & -> & _).
  apply strip_idempotent.
Qed.

Lemma split_fuel_joins (sep : string) (fuel : nat) : forall s,
  sep <> "" ->
  (String.length s <= fuel)%nat ->
  String.concat sep (split_fuel fuel sep s) = s /\
  split_fuel fuel sep s <> [].
Proof.
  induction fuel as [|fuel IH]; intros s Hsep Hlen.
  - destruct s; [|cbn in Hlen; lia].
    cbn [split_fuel cut]. destruct sep; [contradiction|].
    cbn. split; [reflexivity | discriminate].
  - cbn [split_fuel]. destruct (cut sep s) as [[a b]|] eqn:Hcut.
    + destruct (cut_some sep s a b Hsep Hcut) as [Hs _].
      assert (Hb : (String.length b <= fuel)%nat).
      { rewrite Hs, !length_append in Hlen.
        destruct sep; [contradiction|]. cbn in Hlen. lia. }
      destruct (IH b Hsep Hb) as [Hjoin Hne].
      split; [|discriminate].
      destruct (split_fuel fuel sep b) as [|x xs]; [contradiction|].
      cbn [String.concat] in *. now rewrite Hjoin.
    + split; [reflexivity | discriminate].
Qed.

(** X21: splitting at the fences loses nothing: the parts of
    [s.split(fence)] joined again with the fence give [s] back. *)
Theorem fence_split_round_trip (s : string) :
  String.concat fence (split fence s) = s.
Proof.
  unfold split.
  now apply (split_fuel_joins fence (String.length s) s);
    [discriminate | apply Nat.le_refl].
Qed.

(** X22: the order in which [apply_fixes] splices the edits is the
    stable descending order of their positions: it is a rearrangement of
    the edits carried by the fixes, positions never increase along it,
    and the edits of any one position stay in the order of the fixes. *)
Theorem splices_in_stable_descending_order iof (src : string)
  (fixes : list json) (edits : list edit) :
  Forall2 carries fixes edits ->
  exists order,
    apply_fixes iof src fixes = Ok (apply_edits src order) /\
    Permutation order edits /\
    StronglySorted desc order /\
    forall p, filter (has_key p) order = filter (has_key p) edits.
Proof.
  intros Hc. exists (sort_desc edits).
  split; [exact (apply_fixes_carried iof src fixes edits Hc)|].
  split; [apply sort_desc_perm|].
  split; [apply sort_desc_sorted|].
  intros p. apply sort_desc_stable.
Qed.

Lemma splices_in_stable_descending_order_witness :
  Forall2 carries [fix_of (1, "X"); fix_of (3, "Z"); fix_of (1, "Y")]
    [(1, "X"); (3, "Z"); (1, "Y")] /\
  exists order,
    apply_fixes no_str_positions "abc"
      [fix_of (1, "X"); fix_of (3, "Z"); fix_of (1, "Y")]
    = Ok (apply_edits "abc" order) /\
    Permutation order [(1, "X"); (3, "Z"); (1, "Y")] /\
    StronglySorted desc order /\
    forall p,
      filter (has_key p) order
      = filter (has_key p) [(1, "X"); (3, "Z"); (1, "Y")].
Proof.
  assert (Hc : Forall2 carries
                 [fix_of (1, "X"); fix_of (3, "Z"); fix_of (1, "Y")]
                 [(1, "X"); (3, "Z"); (1, "Y")])
    by (repeat constructor; apply carries_fix_of).
  split; [exact Hc|].
  exact (splices_in_stable_descending_order no_str_positions "abc" _ _ Hc).
Defined.

(** * More worked examples *)

Lemma strip_fences_first_block_witness :
  no_backtick "Here it is: " = true /\
  no_backtick "braid fn main() {} " = true /\
  strip_fences ("Here it is: " ++ fence ++ "braid fn main() {} " ++ fence
                ++ " Done.")
  = "fn main() {}".
Proof.
  split; [reflexivity|]. split; [reflexivity|].
  exact (proj1 (strip_fences_first_block "Here it is: "
                  "braid fn main() {} " " Done." eq_refl eq_refl)).
Defined.

Lemma fenced_code_is_stripped_witness :
  contains fence ("x" ++ fence ++ "  code  ") = true /\
  strip (strip_fences ("x" ++ fence ++ "  code  "))
  = strip_fences ("x" ++ fence ++ "  code  ").
Proof.
  split; [reflexivity|].
  exact (fenced_code_is_stripped ("x" ++ fence ++ "  code  ") eq_refl).
Defined.

Lemma clean_after_counts_validator_runs_witness :
  check_and_fix no_str_positions sample_loads (patient_os 2 line_with_edit)
    doc (start (patient_os 2 line_with_edit) 0%nat)
  = (Ok (Some (Succeeded 3)),
     logged (start (patient_os 2 line_with_edit) 0%nat)
       [EvRead doc; EvSpawn fmt_cmd (Some "abc");
        EvWrite doc "abc"; EvSpawn (check_cmd doc) None;
        EvWrite doc "Xabc"; EvSpawn (check_cmd doc) None;
        EvWrite doc "XXabc"; EvSpawn (check_cmd doc) None;
        EvPrint (clean_message 3)] 3%nat) /\
  1 <= 3 <= 10.
Proof.
  split; [reflexivity|].
  exact (proj1 (clean_after_counts_validator_runs no_str_positions
                  sample_loads (patient_os 2 line_with_edit) doc
                  (start (patient_os 2 line_with_edit) 0%nat) 3
                  (logged (start (patient_os 2 line_with_edit) 0%nat)
                     [EvRead doc; EvSpawn fmt_cmd (Some "abc");
                      EvWrite doc "abc"; EvSpawn (check_cmd doc) None;
                      EvWrite doc "Xabc"; EvSpawn (check_cmd doc) None;
                      EvWrite doc "XXabc"; EvSpawn (check_cmd doc) None;
                      EvPrint (clean_message 3)] 3%nat)
                  eq_refl)).
Defined.

Lemma max_rounds_only_after_ten_runs_witness :
  check_and_fix no_str_positions sample_loads (rejecting_os line_with_edit)
    doc (start (rejecting_os line_with_edit) 0%nat)
  = (Ok (Some FailedMaxRounds),
     logged (start (rejecting_os line_with_edit) 0%nat)
       [EvRead doc; EvSpawn fmt_cmd (Some "abc"); EvWrite doc "abc";
        EvSpawn (check_cmd doc) None; EvWrite doc "Xabc";
        EvSpawn (check_cmd doc) None; EvWrite doc "XXabc";
        EvSpawn (check_cmd doc) None; EvWrite doc "XXXabc";
        EvSpawn (check_cmd doc) None; EvWrite doc "XXXXabc";
        EvSpawn (check_cmd doc) None; EvWrite doc "XXXXXabc";
        EvSpawn (check_cmd doc) None; EvWrite doc "XXXXXXabc";
        EvSpawn (check_cmd doc) None; EvWrite doc "XXXXXXXabc";
        EvSpawn (check_cmd doc) None; EvWrite doc "XXXXXXXXabc";
        EvSpawn (check_cmd doc) None; EvWrite doc "XXXXXXXXXabc";
        EvSpawn (check_cmd doc) None; EvPrint max_rounds_message]
       10%nat) /\
  exists evs,
    trace
      (logged (start (rejecting_os line_with_edit) 0%nat)
         [EvRead doc; EvSpawn fmt_cmd (Some "abc"); EvWrite doc "abc";
          EvSpawn (check_cmd doc) None; EvWrite doc "Xabc";
          EvSpawn (check_cmd doc) None; EvWrite doc "XXabc";
          EvSpawn (check_cmd doc) None; EvWrite doc "XXXabc";
          EvSpawn (check_cmd doc) None; EvWrite doc "XXXXabc";
          EvSpawn (check_cmd doc) None; EvWrite doc "XXXXXabc";
          EvSpawn (check_cmd doc) None; EvWrite doc "XXXXXXabc";
          EvSpawn (check_cmd doc) None; EvWrite doc "XXXXXXXabc";
          EvSpawn (check_cmd doc) None; EvWrite doc "XXXXXXXXabc";
          EvSpawn (check_cmd doc) None; EvWrite doc "XXXXXXXXXabc";
          EvSpawn (check_cmd doc) None; EvPrint max_rounds_message]
         10%nat)
    = (trace (start (rejecting_os line_with_edit) 0%nat)
       ++ evs ++ [EvPrint max_rounds_message])%list /\
    validations evs = 10%nat.
Proof.
  split; [reflexivity|].
  exact (max_rounds_only_after_ten_runs no_str_positions sample_loads
           (rejecting_os line_with_edit) doc
           (start (rejecting_os line_with_edit) 0%nat)
           (logged (start (rejecting_os line_with_edit) 0%nat)
              [EvRead doc; EvSpawn fmt_cmd (Some "abc"); EvWrite doc "abc";
               EvSpawn (check_cmd doc) None; EvWrite doc "Xabc";
               EvSpawn (check_cmd doc) None; EvWrite doc "XXabc";
               EvSpawn (check_cmd doc) None; EvWrite doc "XXXabc";
               EvSpawn (check_cmd doc) None; EvWrite doc "XXXXabc";
               EvSpawn (check_cmd doc) None; EvWrite doc "XXXXXabc";
               EvSpawn (check_cmd doc) None; EvWrite doc "XXXXXXabc";
               EvSpawn (check_cmd doc) None; EvWrite doc "XXXXXXXabc";
               EvSpawn (check_cmd doc) None; EvWrite doc "XXXXXXXXabc";
               EvSpawn (check_cmd doc) None; EvWrite doc "XXXXXXXXXabc";
               EvSpawn (check_cmd doc) None; EvPrint max_rounds_message]
              10%nat)
           eq_refl).
Defined.

Lemma last_round_fixes_are_not_written_witness :
  9 + 1 = round_budget /\
  fix_loop no_str_positions sample_loads (rejecting_os line_with_edit)
    1 doc 9 "abc" (start (rejecting_os line_with_edit) 9%nat)
  = (Ok (Some FailedMaxRounds),
     logged (start (rejecting_os line_with_edit) 9%nat)
       [EvWrite doc "abc"; EvSpawn (check_cmd doc) None;
        EvPrint max_rounds_message] 10%nat).
Proof.
  split; [reflexivity|].
  exact (last_round_fixes_are_not_written no_str_positions sample_loads
           (rejecting_os line_with_edit) doc 0 9 "abc"
           (start (rejecting_os line_with_edit) 9%nat)
           9%nat 10%nat 1 line_with_edit "" [fix_of (0, "X")] "Xabc"
           eq_refl eq_refl eq_refl ltac:(discriminate) eq_refl
           ltac:(discriminate) eq_refl).
Defined.

Lemma patient_os_settles :
  settles no_str_positions sample_loads (patient_os 2 line_with_edit) doc
    2 "abc" 0%nat.
Proof.
  apply (settles_later no_str_positions sample_loads
           (patient_os 2 line_with_edit) doc 1 "abc" 0%nat 0%nat 1 line_with_edit ""
           1%nat [fix_of (0, "X")] "Xabc");
    try reflexivity; try discriminate.
  apply (settles_later no_str_positions sample_loads
           (patient_os 2 line_with_edit) doc 0 "Xabc" 1%nat 1%nat 1 line_with_edit ""
           2%nat [fix_of (0, "X")] "XXabc");
    try reflexivity; try discriminate.
  apply (settles_now no_str_positions sample_loads
           (patient_os 2 line_with_edit) doc "XXabc" 2%nat 2%nat "" "" 3%nat); reflexivity.
Defined.

Lemma accepted_within_budget_witness :
  formatted_from (patient_os 2 line_with_edit) doc
    (start (patient_os 2 line_with_edit) 0%nat) "abc" 0 "abc" 0%nat /\
  settles no_str_positions sample_loads (patient_os 2 line_with_edit) doc
    2 (adopt "abc" 0 "abc") 0%nat /\
  (2 < 10)%nat /\
  exists evs w',
    check_and_fix no_str_positions sample_loads (patient_os 2 line_with_edit)
      doc (start (patient_os 2 line_with_edit) 0%nat)
    = (Ok (Some (Succeeded (Z.of_nat 2 + 1))),
       logged (start (patient_os 2 line_with_edit) 0%nat)
         (evs ++ [EvPrint (clean_message (Z.of_nat 2 + 1))])%list w') /\
    validations evs = 3%nat.
Proof.
  assert (Hf : formatted_from (patient_os 2 line_with_edit) doc
                 (start (patient_os 2 line_with_edit) 0%nat)
                 "abc" 0 "abc" 0%nat)
    by (exists 0%nat, ""; split; reflexivity).
  assert (Hn : (2 < 10)%nat) by (repeat constructor).
  split; [exact Hf|]. split; [exact patient_os_settles|].
  split; [exact Hn|].
  exact (accepted_within_budget no_str_positions sample_loads
           (patient_os 2 line_with_edit) doc 2
           (start (patient_os 2 line_with_edit) 0%nat) "abc" 0 "abc" 0%nat
           Hf patient_os_settles Hn).
Defined.

Lemma exit_zero_means_accepted_witness :
  main no_str_positions sample_loads (plain_os (Some "abc") true)
    ["llm_autofix.py"; doc] (start (plain_os (Some "abc") true) 0%nat)
  = (Ok (Some 0),
     logged (start (plain_os (Some "abc") true) 0%nat)
       [EvRead doc; EvSpawn fmt_cmd (Some "abc"); EvWrite doc "abc";
        EvSpawn (check_cmd doc) None; EvPrint (clean_message 1)] 2%nat) /\
  ((exists e, Ok (Some 0) = Raise e) \/
   Ok (Some 0) = Ok (Some 1) \/
   (Ok (Some 0) = Ok (Some 0) /\
    exists content w0 w1 out err,
      write_file (plain_os (Some "abc") true) doc content w0 = (Ok tt, w1) /\
      spawn (plain_os (Some "abc") true) (check_cmd doc) None w1
      = (Ok (0, out, err), 2%nat))).
Proof.
  split; [reflexivity|].
  exact (exit_zero_means_accepted no_str_positions sample_loads
           (plain_os (Some "abc") true) doc "llm_autofix.py"
           (start (plain_os (Some "abc") true) 0%nat)
           (Ok (Some 0))
           (logged (start (plain_os (Some "abc") true) 0%nat)
              [EvRead doc; EvSpawn fmt_cmd (Some "abc"); EvWrite doc "abc";
               EvSpawn (check_cmd doc) None; EvPrint (clean_message 1)]
              2%nat)
           eq_refl).
Defined.

Lemma wrong_argument_count_is_usage_error_witness :
  List.length ["llm_autofix.py"] <> 2%nat /\
  main no_str_positions sample_loads (plain_os None false) ["llm_autofix.py"]
    (start (plain_os None false) 0%nat)
  = (Ok (Some 2),
     logged (start (plain_os None false) 0%nat) [EvPrint usage_message]
       0%nat).
Proof.
  assert (H : List.length ["llm_autofix.py"] <> 2%nat) by discriminate.
  split; [exact H|].
  exact (wrong_argument_count_is_usage_error no_str_positions sample_loads
           (plain_os None false) ["llm_autofix.py"]
           (start (plain_os None false) 0%nat) H).
Defined.

Lemma read_or_format_failure_is_fatal_witness :
  read_file (plain_os None false) doc 0%nat = (Raise OSError, 0%nat) /\
  check_and_fix no_str_positions sample_loads (plain_os None false) doc
    (start (plain_os None false) 0%nat)
  = (Raise OSError, logged (start (plain_os None false) 0%nat)
                      [EvRead doc] 0%nat) /\
  read_file (plain_os (Some "abc") false) doc 0%nat = (Ok "abc", 0%nat) /\
  spawn (plain_os (Some "abc") false) fmt_cmd (piped (Some "abc")) 0%nat
  = (Raise OSError, 0%nat) /\
  check_and_fix no_str_positions sample_loads (plain_os (Some "abc") false)
    doc (start (plain_os (Some "abc") false) 0%nat)
  = (Raise OSError,
     logged (start (plain_os (Some "abc") false) 0%nat)
       [EvRead doc; EvSpawn fmt_cmd (piped (Some "abc"))] 0%nat).
Proof.
  split; [reflexivity|]. split.
  - exact (proj1 (read_or_format_failure_is_fatal no_str_positions
                    sample_loads (plain_os None false) doc
                    (start (plain_os None false) 0%nat) OSError)
             0%nat eq_refl).
  - split; [reflexivity|]. split; [reflexivity|].
    exact (proj2 (read_or_format_failure_is_fatal no_str_positions
                    sample_loads (plain_os (Some "abc") false) doc
                    (start (plain_os (Some "abc") false) 0%nat) OSError)
             "abc" 0%nat 0%nat eq_refl eq_refl).
Defined.

Lemma empty_file_is_not_piped_witness :
  read_file (plain_os (Some "") true) doc 0%nat = (Ok "", 0%nat) /\
  exists rest,
    trace (snd (check_and_fix_fuel no_str_positions sample_loads
                  (plain_os (Some "") true) 10 doc
                  (start (plain_os (Some "") true) 0%nat)))
    = (trace (start (plain_os (Some "") true) 0%nat)
       ++ EvRead doc :: EvSpawn fmt_cmd None :: rest)%list.
Proof.
  split; [reflexivity|].
  exact (empty_file_is_not_piped no_str_positions sample_loads
           (plain_os (Some "") true) doc 10
           (start (plain_os (Some "") true) 0%nat) "" 0%nat eq_refl).
Defined.
